(** * Price-constraint extraction of the semantic product search (api/app.py)

    A shallow embedding of [_extract_price_filters] and of the filter and
    limit construction of the [search] route, with the parts of the Python
    runtime they rest on: [str.lower], [str.strip], [str.split],
    [str.replace], the backtracking matcher of the [re] module ([finditer],
    [search], [sub]) and binary64 floats ([float], [*], [min], [max],
    [sorted]).

    Characters are code points below 256 (type [ascii]); on them the
    classes [\d], [\s], [\w] and [str.lower] are the ones of Python 3.
    A function that can raise returns an [option], [None] being the
    exception. *)

From Stdlib Require Import Bool Arith ZArith NArith List Ascii String Lia.
From Stdlib Require Import Floats.SpecFloat.
From Stdlib Require Import DecimalString.
Import ListNotations.

Open Scope string_scope.

(** ** Characters *)

Module Chr.

Definition code (c : ascii) : N := N_of_ascii c.

Definition between (lo hi : N) (c : ascii) : bool :=
  (lo <=? code c)%N && (code c <=? hi)%N.

(** [\d] on code points below 256: the decimal digits. *)
Definition is_digit (c : ascii) : bool := between 48 57 c.

(** [str.isspace], which is also [\s] of a str pattern. *)
Definition is_space (c : ascii) : bool :=
  between 9 13 c || between 28 32 c || (code c =? 133)%N || (code c =? 160)%N.

(** The class [[ \t]] of [_WS]. *)
Definition is_blank (c : ascii) : bool :=
  (code c =? 32)%N || (code c =? 9)%N.

(** [\w] of a str pattern: alphanumeric characters and the underscore. *)
Definition is_word (c : ascii) : bool :=
  between 48 57 c || between 65 90 c || (code c =? 95)%N || between 97 122 c
  || (code c =? 170)%N || between 178 179 c || (code c =? 181)%N
  || between 185 186 c || between 188 190 c
  || between 192 214 c || between 216 246 c || between 248 255 c.

(** [str.lower] on one character. *)
Definition lower (c : ascii) : ascii :=
  if between 65 90 c || between 192 214 c || between 216 222 c
  then ascii_of_N (code c + 32)
  else c.

End Chr.

(** ** Strings *)

Module Str.

Fixpoint all (p : ascii -> bool) (s : string) : bool :=
  match s with
  | EmptyString => true
  | String c s' => p c && all p s'
  end.

Fixpoint any (p : ascii -> bool) (s : string) : bool :=
  match s with
  | EmptyString => false
  | String c s' => p c || any p s'
  end.

Fixpoint map (f : ascii -> ascii) (s : string) : string :=
  match s with
  | EmptyString => EmptyString
  | String c s' => String (f c) (map f s')
  end.

Fixpoint take (n : nat) (s : string) : string :=
  match n, s with
  | O, _ => EmptyString
  | S _, EmptyString => EmptyString
  | S n', String c s' => String c (take n' s')
  end.

Definition is_empty (s : string) : bool :=
  match s with EmptyString => true | _ => false end.

(** [s.lower()] *)
Definition lower (s : string) : string := map Chr.lower s.

Fixpoint lstrip (s : string) : string :=
  match s with
  | EmptyString => EmptyString
  | String c s' => if Chr.is_space c then lstrip s' else s
  end.

Fixpoint rstrip (s : string) : string :=
  match s with
  | EmptyString => EmptyString
  | String c s' =>
      let r := rstrip s' in
      if is_empty r && Chr.is_space c then EmptyString else String c r
  end.

(** [s.strip()] *)
Definition strip (s : string) : string := rstrip (lstrip s).

Definition starts_with_space (s : string) : bool :=
  match s with
  | EmptyString => true
  | String c _ => Chr.is_space c
  end.

(** [s.split()]: the maximal runs of non-whitespace characters.  A
    character that is not whitespace opens a word when whitespace or the end
    follows it, and otherwise joins the word that the rest begins with. *)
Fixpoint split (s : string) : list string :=
  match s with
  | EmptyString => []
  | String c s' =>
      if Chr.is_space c then split s'
      else if starts_with_space s' then String c EmptyString :: split s'
      else match split s' with
           | w :: ws => String c w :: ws
           | [] => [String c EmptyString]
           end
  end.

(** [sep.join(ws)] *)
Fixpoint join (sep : string) (ws : list string) : string :=
  match ws with
  | [] => EmptyString
  | [w] => w
  | w :: ws' => w ++ sep ++ join sep ws'
  end.

(** [" ".join(s.split())] *)
Definition squish (s : string) : string := join " " (split s).

(** [s.startswith(p)] *)
Fixpoint starts_with (p s : string) : bool :=
  match p, s with
  | EmptyString, _ => true
  | String _ _, EmptyString => false
  | String a p', String b s' => Ascii.eqb a b && starts_with p' s'
  end.

(** [sub in s] *)
Fixpoint contains (sub s : string) : bool :=
  starts_with sub s ||
  match s with
  | EmptyString => false
  | String _ s' => contains sub s'
  end.

(** [s.replace(old, new)] for a non-empty [old]: the non-overlapping
    occurrences of [old], found from the left, are replaced.  [skip] counts
    the characters of an occurrence that are still to be passed over. *)
Fixpoint replace_from (old new : string) (skip : nat) (s : string) : string :=
  match s with
  | EmptyString => EmptyString
  | String c s' =>
      match skip with
      | S n => replace_from old new n s'
      | O =>
          if starts_with old s
          then new ++ replace_from old new (String.length old - 1) s'
          else String c (replace_from old new O s')
      end
  end.

(** [s.replace("", new)] puts [new] before every character and at the end. *)
Fixpoint intersperse (new : string) (s : string) : string :=
  match s with
  | EmptyString => new
  | String c s' => new ++ String c (intersperse new s')
  end.

Definition replace (old new s : string) : string :=
  if is_empty old then intersperse new s else replace_from old new O s.

End Str.

(** ** The backtracking matcher of the [re] module *)

Module Re.

(** The pattern syntax this program uses.  [Alt] is the ordered choice
    [a|b], [Star] the greedy [*], [Grp n] the capturing group number [n],
    [WordB] the assertion [\b]. *)
Inductive regex : Type :=
| Eps
| Lit (c : ascii)
| Cls (p : ascii -> bool)
| Seq (r1 r2 : regex)
| Alt (r1 r2 : regex)
| Star (r : regex)
| Grp (n : nat) (r : regex)
| WordB.

Declare Scope re_scope.
Delimit Scope re_scope with re.
Bind Scope re_scope with regex.
Infix "~>" := Seq (at level 60, right associativity) : re_scope.
Infix "</>" := Alt (at level 70, right associativity) : re_scope.

(** A literal word. *)
Fixpoint str (w : string) : regex :=
  match w with
  | EmptyString => Eps
  | String c EmptyString => Lit c
  | String c w' => Seq (Lit c) (str w')
  end.

(** [r?], [r+], [r{3}] and [r{1,3}], all greedy. *)
Definition Opt (r : regex) : regex := Alt r Eps.
Definition Plus (r : regex) : regex := Seq r (Star r).
Definition Rep3 (r : regex) : regex := Seq r (Seq r r).
Definition Rep1to3 (r : regex) : regex := Seq r (Opt (Seq r (Opt r))).

(** Captured groups, the most recent binding first. *)
Definition caps : Type := list (nat * string).
Bind Scope list_scope with caps.

Fixpoint lookup (n : nat) (g : caps) : option string :=
  match g with
  | [] => None
  | (i, t) :: g' => if Nat.eqb i n then Some t else lookup n g'
  end.

(** A position is the character before it, if any, and the text after it. *)
Definition cont : Type := option ascii -> string -> caps -> option (string * caps).

Definition word_before (prev : option ascii) : bool :=
  match prev with Some c => Chr.is_word c | None => false end.

Definition word_after (s : string) : bool :=
  match s with String c _ => Chr.is_word c | EmptyString => false end.

(** The greedy repetition of [body]: one more round is tried first, then
    the rest of the pattern.  A round that matched the empty string ends the
    repetition.  [n] bounds the number of rounds; each round that goes on
    shortens the text, so [S (length s)] rounds are never used up. *)
Fixpoint star_loop
         (body : option ascii -> string -> caps -> cont -> option (string * caps))
         (k : cont) (n : nat) (prev : option ascii) (s : string) (g : caps)
         {struct n} : option (string * caps) :=
  match n with
  | O => k prev s g
  | S n' =>
      match body prev s g
              (fun p' s' g' =>
                 if Nat.ltb (String.length s') (String.length s)
                 then star_loop body k n' p' s' g'
                 else k p' s' g')
      with
      | Some x => Some x
      | None => k prev s g
      end
  end.

(** [run r prev s g k] matches [r] at the position [(prev, s)] and hands
    the position after the match to [k]; when [k] fails, the next choice of
    [r] in priority order is tried. *)
Fixpoint run (r : regex) (prev : option ascii) (s : string) (g : caps)
         (k : cont) {struct r} : option (string * caps) :=
  match r with
  | Eps => k prev s g
  | Lit c =>
      match s with
      | String a s' => if Ascii.eqb a c then k (Some a) s' g else None
      | EmptyString => None
      end
  | Cls p =>
      match s with
      | String a s' => if p a then k (Some a) s' g else None
      | EmptyString => None
      end
  | Seq r1 r2 => run r1 prev s g (fun p' s' g' => run r2 p' s' g' k)
  | Alt r1 r2 =>
      match run r1 prev s g k with
      | Some x => Some x
      | None => run r2 prev s g k
      end
  | Star r1 => star_loop (run r1) k (S (String.length s)) prev s g
  | Grp n r1 =>
      run r1 prev s g
        (fun p' s' g' =>
           k p' s' ((n, Str.take (String.length s - String.length s') s) :: g'))
  | WordB =>
      if xorb (word_before prev) (word_after s) then k prev s g else None
  end.

(** A match object: [m.group(0)] and the captured groups. *)
Record rmatch : Type := { group0 : string; groups : caps }.

(** [m.group(n)] for [n >= 1]; [None] when the group took no part. *)
Definition group (n : nat) (m : rmatch) : option string := lookup n (groups m).

(** [pattern.match] at one position. *)
Definition match_at (r : regex) (prev : option ascii) (s : string)
  : option rmatch :=
  match run r prev s [] (fun _ s' g => Some (s', g)) with
  | Some (s', g) =>
      Some {| group0 := Str.take (String.length s - String.length s') s;
              groups := g |}
  | None => None
  end.

(** [re.finditer(r, s)]: the matches from the left, each search starting
    where the previous match ended.  [skip] counts the characters of the
    last match that are still to be passed over. *)
Fixpoint finditer_from (r : regex) (prev : option ascii) (skip : nat)
         (s : string) : list rmatch :=
  match skip with
  | S n =>
      match s with
      | EmptyString => []
      | String c s' => finditer_from r (Some c) n s'
      end
  | O =>
      match match_at r prev s with
      | Some m =>
          m :: match s with
               | EmptyString => []
               | String c s' =>
                   finditer_from r (Some c) (String.length (group0 m) - 1) s'
               end
      | None =>
          match s with
          | EmptyString => []
          | String c s' => finditer_from r (Some c) O s'
          end
      end
  end.

Definition finditer (r : regex) (s : string) : list rmatch :=
  finditer_from r None O s.

(** [re.search(r, s)] as a truth value. *)
Fixpoint search_from (r : regex) (prev : option ascii) (s : string) : bool :=
  match match_at r prev s with
  | Some _ => true
  | None =>
      match s with
      | EmptyString => false
      | String c s' => search_from r (Some c) s'
      end
  end.

Definition search (r : regex) (s : string) : bool := search_from r None s.

(** [re.sub(r, repl, s)] for a replacement text without escapes. *)
Fixpoint sub_from (r : regex) (repl : string) (prev : option ascii)
         (skip : nat) (s : string) : string :=
  match skip with
  | S n =>
      match s with
      | EmptyString => EmptyString
      | String c s' => sub_from r repl (Some c) n s'
      end
  | O =>
      match match_at r prev s with
      | Some m =>
          repl ++
          match s with
          | EmptyString => EmptyString
          | String c s' =>
              match String.length (group0 m) with
              | O => String c (sub_from r repl (Some c) O s')
              | S n => sub_from r repl (Some c) n s'
              end
          end
      | None =>
          match s with
          | EmptyString => EmptyString
          | String c s' => String c (sub_from r repl (Some c) O s')
          end
      end
  end.

Definition sub (r : regex) (repl s : string) : string :=
  sub_from r repl None O s.

End Re.

(** ** Floats *)

Module Flt.

(** A Python float is an IEEE 754 binary64 number. *)
Definition prec : Z := 53.
Definition emax : Z := 1024.
Definition float : Type := spec_float.

Fixpoint pow10 (k : nat) : positive :=
  match k with
  | O => 1%positive
  | S k' => (10 * pow10 k')%positive
  end.

(** The float nearest to [n / 10^k], ties to even. *)
Definition of_decimal (n : N) (k : nat) : float :=
  match n with
  | N0 => S754_zero false
  | Npos p =>
      SFdiv prec emax (S754_finite false p 0) (S754_finite false (pow10 k) 0)
  end.

(** The float nearest to the integer [n]. *)
Definition of_N (n : N) : float := of_decimal n 0.

Definition mul (x y : float) : float := SFmul prec emax x y.
Definition ltb (x y : float) : bool := SFltb x y.
Definition leb (x y : float) : bool := SFleb x y.

Definition is_nan (x : float) : bool :=
  match x with S754_nan => true | _ => false end.

(** [max(a, b)] keeps [a] unless [b > a]; [min(a, b)] keeps [a] unless
    [b < a]. *)
Definition max (a b : float) : float := if ltb a b then b else a.
Definition min (a b : float) : float := if ltb b a then b else a.

(** [sorted((a, b))]: a stable sort by [<]. *)
Definition sorted2 (a b : float) : float * float :=
  if ltb b a then (b, a) else (a, b).

Fixpoint digits_value (acc : N) (s : string) : N :=
  match s with
  | EmptyString => acc
  | String c s' => digits_value (acc * 10 + (Chr.code c - 48))%N s'
  end.

Fixpoint span_digits (s : string) : string * string :=
  match s with
  | EmptyString => (EmptyString, EmptyString)
  | String c s' =>
      if Chr.is_digit c
      then let (d, rest) := span_digits s' in (String c d, rest)
      else (EmptyString, s)
  end.

(** [float(s)] on the plain decimal literals: digits with an optional
    fraction, at least one digit in all.  [None] is the ValueError of a
    malformed text; it is also the answer for the literals of [float]
    outside this syntax (signs, exponents, inf, nan, underscores, blanks),
    which [_NUM] cannot capture. *)
Definition py_float (s : string) : option float :=
  let (ip, rest) := span_digits s in
  match rest with
  | EmptyString =>
      if Str.is_empty ip then None else Some (of_decimal (digits_value 0 ip) 0)
  | String c fp =>
      if Ascii.eqb c "." && Str.all Chr.is_digit fp
         && negb (Str.is_empty (ip ++ fp))
      then Some (of_decimal (digits_value 0 (ip ++ fp)) (String.length fp))
      else None
  end.

End Flt.

(** ** Price NLP *)

Import Re.
Open Scope re_scope.

Definition digit : regex := Cls Chr.is_digit.

(** [_NUM = r"(?:\d{1,3}(?:,\d{3})*|\d+)(?:\.\d+)?"] *)
Definition _NUM : regex :=
  (Rep1to3 digit ~> Star (Lit "," ~> Rep3 digit) </> Plus digit)
  ~> Opt (Lit "." ~> Plus digit).

(** [_CURRENCY = r"(?:\$|usd|dollars?)"] *)
Definition _CURRENCY : regex :=
  Lit "$" </> str "usd" </> (str "dollar" ~> Opt (Lit "s")).

(** [_WS = r"[ \t]*"] *)
Definition _WS : regex := Star (Cls Chr.is_blank).

(** [\s*] *)
Definition spaces : regex := Star (Cls Chr.is_space).

(** The tail [(?:{_WS}{_CURRENCY})?] every numeric pattern ends with. *)
Definition currency_tail : regex := Opt (_WS ~> _CURRENCY).

(** [_to_float]: [float(s.replace(",", ""))] *)
Definition _to_float (s : string) : option Flt.float :=
  Flt.py_float (Str.replace "," "" s).

(** The two interval patterns of lines 100-103. *)
Definition pat_between : regex :=
  (str "between" </> str "from") ~> _WS ~> Grp 1 _NUM ~> _WS
  ~> (str "and" </> str "to" </> Lit "-") ~> _WS ~> Grp 2 _NUM
  ~> currency_tail.

Definition pat_dash : regex :=
  Grp 1 _NUM ~> _WS ~> Lit "-" ~> _WS ~> Grp 2 _NUM ~> currency_tail.

(** The upper-bound patterns of lines 113-117. *)
Definition pat_under : regex :=
  (str "under" </> str "below" </> (str "at" ~> spaces ~> str "most"))
  ~> _WS ~> Grp 1 _NUM ~> currency_tail.

Definition pat_le : regex :=
  (str "<=" </> Lit "<") ~> _WS ~> Grp 1 _NUM ~> currency_tail.

Definition pat_upto : regex :=
  (str "up" ~> spaces ~> str "to") ~> _WS ~> Grp 1 _NUM ~> currency_tail.

(** The lower-bound patterns of lines 124-127. *)
Definition pat_over : regex :=
  (str "over" </> str "above" </> (str "at" ~> spaces ~> str "least"))
  ~> _WS ~> Grp 1 _NUM ~> currency_tail.

Definition pat_ge : regex :=
  (str ">=" </> Lit ">") ~> _WS ~> Grp 1 _NUM ~> currency_tail.

(** The approximation patterns of lines 134-137. *)
Definition pat_around : regex :=
  (str "around" </> str "about"
   </> (str "approx" ~> Opt (Lit "." </> str "imately")))
  ~> _WS ~> Grp 1 _NUM ~> currency_tail.

Definition pat_exactly : regex :=
  str "exactly" ~> _WS ~> Grp 1 _NUM ~> currency_tail.

(** The soft words of lines 147 and 153. *)
Definition pat_cheap : regex :=
  WordB ~> Grp 1 (str "cheap" </> str "inexpensive" </> str "budget")
  ~> WordB.

Definition pat_expensive : regex :=
  WordB ~> Grp 1 (str "expensive" </> str "premium" </> str "high-end")
  ~> WordB.

Close Scope re_scope.

(** The float constants of the source: 0.9, 1.1, 15.0 and 100.0. *)
Definition f0_9 : Flt.float := Flt.of_decimal 9 1.
Definition f1_1 : Flt.float := Flt.of_decimal 11 1.
Definition f15 : Flt.float := Flt.of_decimal 150 1.
Definition f100 : Flt.float := Flt.of_decimal 1000 1.

(** [lo if min_price is None else max(min_price, lo)] *)
Definition raise_min (cur : option Flt.float) (lo : Flt.float) : option Flt.float :=
  match cur with
  | None => Some lo
  | Some m => Some (Flt.max m lo)
  end.

(** [hi if max_price is None else min(max_price, hi)] *)
Definition lower_max (cur : option Flt.float) (hi : Flt.float) : option Flt.float :=
  match cur with
  | None => Some hi
  | Some m => Some (Flt.min m hi)
  end.

(** The loop variables: the working text [s], [min_price], [max_price]. *)
Record state : Type :=
  { text : string; min_price : option Flt.float; max_price : option Flt.float }.

(** A raised exception is [None]. *)
Definition bind {A B : Type} (x : option A) (f : A -> option B) : option B :=
  match x with
  | Some a => f a
  | None => None
  end.

Notation "x <- e ;; k" := (bind e (fun x => k))
  (at level 61, e at next level, right associativity).

(** [s = s.replace(m.group(0), " ")] *)
Definition erase (m : rmatch) (s : string) : string :=
  Str.replace (group0 m) " " s.

(** Body of the loop of lines 105-110. *)
Definition interval_step (st : state) (m : rmatch) : option state :=
  t1 <- group 1 m ;;
  a <- _to_float t1 ;;
  t2 <- group 2 m ;;
  b <- _to_float t2 ;;
  let (lo, hi) := Flt.sorted2 a b in
  Some {| text := erase m (text st);
          min_price := raise_min (min_price st) lo;
          max_price := lower_max (max_price st) hi |}.

(** Body of the loop of lines 118-121. *)
Definition upper_step (st : state) (m : rmatch) : option state :=
  t1 <- group 1 m ;;
  val <- _to_float t1 ;;
  Some {| text := erase m (text st);
          min_price := min_price st;
          max_price := lower_max (max_price st) val |}.

(** Body of the loop of lines 128-131. *)
Definition lower_step (st : state) (m : rmatch) : option state :=
  t1 <- group 1 m ;;
  val <- _to_float t1 ;;
  Some {| text := erase m (text st);
          min_price := raise_min (min_price st) val;
          max_price := max_price st |}.

(** Body of the loop of lines 138-144. *)
Definition approx_step (st : state) (m : rmatch) : option state :=
  t1 <- group 1 m ;;
  val <- _to_float t1 ;;
  let (lo, hi) :=
    if Str.contains "around" (group0 m) || Str.contains "about" (group0 m)
       || Str.contains "approx" (group0 m)
    then (Flt.mul f0_9 val, Flt.mul f1_1 val)
    else (val, val) in
  Some {| text := erase m (text st);
          min_price := raise_min (min_price st) lo;
          max_price := lower_max (max_price st) hi |}.

(** [for m in ms: body]: the body runs on every match in turn and stops at
    the first exception. *)
Fixpoint each_match (body : state -> rmatch -> option state)
         (ms : list rmatch) (st : state) : option state :=
  match ms with
  | [] => Some st
  | m :: ms' => st' <- body st m ;; each_match body ms' st'
  end.

(** [for m in re.finditer(pat, s): body].  The matches are those of the
    text as it is when the loop starts; the body then rewrites [s]. *)
Definition scan (body : state -> rmatch -> option state) (pat : regex)
           (st : state) : option state :=
  each_match body (finditer pat (text st)) st.

(** [for pat in pats: for m in re.finditer(pat, s): body] *)
Fixpoint scan_all (body : state -> rmatch -> option state)
         (pats : list regex) (st : state) : option state :=
  match pats with
  | [] => Some st
  | pat :: pats' => st' <- scan body pat st ;; scan_all body pats' st'
  end.

(** Lines 147-151. *)
Definition soft_cheap (st : state) : state :=
  if search pat_cheap (text st)
  then {| text := sub pat_cheap " " (text st);
          min_price := min_price st;
          max_price := match max_price st with
                       | None => Some f15
                       | Some v => Some v
                       end |}
  else st.

(** Lines 153-156. *)
Definition soft_expensive (st : state) : state :=
  if search pat_expensive (text st)
  then {| text := sub pat_expensive " " (text st);
          min_price := match min_price st with
                       | None => Some f100
                       | Some v => Some v
                       end;
          max_price := max_price st |}
  else st.

(** Lines 94-97: the padded lower-case working text and the empty range. *)
Definition initial (q : string) : state :=
  {| text := " " ++ Str.strip (Str.lower q) ++ " ";
     min_price := None;
     max_price := None |}.

(** Lines 99-156: the passes in their order. *)
Definition passes (q : string) : option state :=
  st1 <- scan_all interval_step [pat_between; pat_dash] (initial q) ;;
  st2 <- scan_all upper_step [pat_under; pat_le; pat_upto] st1 ;;
  st3 <- scan_all lower_step [pat_over; pat_ge] st2 ;;
  st4 <- scan_all approx_step [pat_around; pat_exactly] st3 ;;
  Some (soft_expensive (soft_cheap st4)).

(** Lines 158-162. *)
Definition finish (original : string) (st : state)
  : string * option Flt.float * option Flt.float :=
  let cleaned := Str.squish (text st) in
  (if Str.is_empty cleaned then original else cleaned,
   min_price st, max_price st).

Definition _extract_price_filters (q : string)
  : option (string * option Flt.float * option Flt.float) :=
  st <- passes q ;; Some (finish q st).

(** ** The search route *)

(** [Range(gte=..., lte=...)] *)
Record Range : Type := { gte : option Flt.float; lte : option Flt.float }.

(** The two field conditions the route builds: a range on "price" and an
    exact match on "category". *)
Inductive FieldCondition : Type :=
| PriceRange (rng : Range)
| CategoryMatch (value : string).

(** The keyword arguments of [client.search]. *)
Record SearchCall (vector : Type) : Type :=
  { collection_name : string;
    query_vector : vector;
    limit : Z;
    score_threshold : Flt.float;
    query_filter : option (list FieldCondition) }.

Arguments collection_name {vector} _.
Arguments query_vector {vector} _.
Arguments limit {vector} _.
Arguments score_threshold {vector} _.
Arguments query_filter {vector} _.

Definition COLLECTION : string := "products".

(** [res[:top_k]] *)
Definition slice_to {A : Type} (top_k : Z) (res : list A) : list A :=
  if (0 <=? top_k)%Z
  then firstn (Z.to_nat top_k) res
  else firstn (List.length res - Z.to_nat (- top_k)) res.

Definition is_some {A : Type} (x : option A) : bool :=
  match x with Some _ => true | None => false end.

(** Lines 239-252. *)
Definition build_filter (min_price max_price : option Flt.float)
           (category : option string) : option (list FieldCondition) :=
  let price :=
    if is_some min_price || is_some max_price
    then [PriceRange {| gte := min_price; lte := max_price |}]
    else [] in
  let cat :=
    match category with
    | Some c => if Str.is_empty c then [] else [CategoryMatch c]
    | None => []
    end in
  match (price ++ cat)%list with
  | [] => None
  | conds => Some conds
  end.

Section Route.

(** The collaborators: the embedding model and the vector store. *)
Variables vector point payload : Type.
Variable embed_texts : list string -> list vector.
Variable client_search : SearchCall vector -> list point.
Variable payload_of : point -> payload.

(** Lines 255-261: the call made on the store. *)
Definition search_call (vec : vector) (min_price max_price : option Flt.float)
           (top_k : Z) (threshold : Flt.float) (category : option string)
  : SearchCall vector :=
  {| collection_name := COLLECTION;
     query_vector := vec;
     limit := Z.max top_k 12;
     score_threshold := threshold;
     query_filter := build_filter min_price max_price category |}.

(** [q: str = Query(..., min_length=1)]: the route refuses an empty query
    before its body runs. *)
Definition accepts (q : string) : bool := Nat.leb 1 (String.length q).

(** The route [search]; [None] is a refused request, an exception of the
    extractor or the IndexError of an empty embedding result. *)
Definition search (q : string) (top_k : Z) (threshold : Flt.float)
           (category : option string) : option (list payload) :=
  if negb (accepts q) then None else
  r <- _extract_price_filters q ;;
  let '(cleaned_q, min_price, max_price) := r in
  vec <- hd_error (embed_texts [cleaned_q]) ;;
  let res :=
    client_search
      (search_call vec min_price max_price top_k threshold category) in
  Some (List.map payload_of (slice_to top_k res)).

End Route.

Arguments search_call {vector} _ _ _ _ _ _.
Arguments search {vector point payload} _ _ _ _ _ _ _.

(** ** The collection and its seeding *)

(** What [json.loads] returns.  A text stands here by its UTF-8 bytes, a
    lone surrogate by the three bytes that this encoding would give it: the
    functions below only compare keys and join texts. *)
#[warnings="-register-all"]
Inductive json : Type :=
| JNull
| JBool (b : bool)
| JInt (z : Z)
| JFloat (f : Flt.float)
| JStr (s : string)
| JList (l : list json)
| JDict (d : list (string * json)).

(** A dict with text keys: the items in insertion order, each key once. *)
Definition dict : Type := list (string * json).

(** [d.get(k)], [None] when the key is missing. *)
Fixpoint dict_get (k : string) (d : dict) : option json :=
  match d with
  | [] => None
  | (k', v) :: d' => if String.eqb k' k then Some v else dict_get k d'
  end.

(** [{**d, k: v}]: the value of a key that is there is replaced in place, a
    new key goes to the end. *)
Fixpoint dict_set (k : string) (v : json) (d : dict) : dict :=
  match d with
  | [] => [(k, v)]
  | (k', v') :: d' =>
      if String.eqb k' k then (k, v) :: d' else (k', v') :: dict_set k v d'
  end.

(** The truth value of an object, as [or] takes it. *)
Definition truthy (x : json) : bool :=
  match x with
  | JNull => false
  | JBool b => b
  | JInt z => negb (z =? 0)%Z
  | JFloat f => negb (SpecFloat.SFeqb f (SpecFloat.S754_zero false))
  | JStr s => negb (Str.is_empty s)
  | JList l => match l with [] => false | _ => true end
  | JDict d => match d with [] => false | _ => true end
  end.

(** The exceptions of these functions: the two that the code raises or
    provokes itself, the UnicodeEncodeError of [uuid.uuid5], and any other
    exception, by the name of its class. *)
Inductive error : Type :=
| HTTPException (status_code : Z) (detail : string)
| AttributeError
| UnicodeEncodeError
| OtherException (name : string).

(** A function that can raise returns its value or its exception. *)
Inductive outcome (A : Type) : Type :=
| Return (a : A)
| Raise (e : error).

Arguments Return {A} _.
Arguments Raise {A} _.

(** What [upsert_products] finds at the path products.json: no file; an
    exception [e] other than JSONDecodeError raised while the file is
    looked up, read, decoded as UTF-8 or parsed (OSError,
    UnicodeDecodeError, RecursionError, ValueError), which the [except] of
    line 177 does not catch; a text that [json.loads] rejects with a
    JSONDecodeError of message [err]; or the object that [json.loads]
    returns. *)
Inductive products_file : Type :=
| NoFile
| Unreadable (e : error)
| BadJson (err : string)
| Json (data : json).

Definition DIM : Z := 384.

Inductive Distance : Type := COSINE | EUCLID | DOT | MANHATTAN.

(** [VectorParams(size=..., distance=...)] *)
Record VectorParams : Type := { size : Z; distance : Distance }.

(** [PointStruct(id=..., vector=..., payload=...)] *)
Record PointStruct (vector : Type) : Type :=
  { id : string; vector_of : vector; payload : dict }.

Arguments id {vector} _.
Arguments vector_of {vector} _.
Arguments payload {vector} _.

Section Seeding.

(** The collaborators: the vector store behind [client] and the embedding
    model, whose calls are taken to return; [uuid.uuid5] in the URL
    namespace, as text, which answers [None] for a name that UTF-8 cannot
    encode (a lone surrogate) and then raises UnicodeEncodeError; and [str]
    on the objects whose text is not modelled here (floats, lists and
    dicts). *)
Variables store vector : Type.
Variable get_collections : store -> list string.
Variable create_collection : string -> VectorParams -> store -> store.
Variable points_count : string -> store -> option Z.
Variable upsert : string -> list (PointStruct vector) -> store -> store.
Variable embed_texts : list string -> list vector.
Variable uuid5_url : string -> option string.
Variable str_other : json -> string.

(** Lines 56-62. *)
Definition ensure_collection (client : store) : store :=
  if existsb (String.eqb COLLECTION) (get_collections client)
  then client
  else create_collection COLLECTION {| size := DIM; distance := COSINE |} client.

(** Lines 65-70. *)
Definition _to_uuid (point_id : string) : outcome string :=
  match uuid5_url ("product:" ++ point_id) with
  | Some u => Return u
  | None => Raise UnicodeEncodeError
  end.

(** [str(x)], which is also what an f-string puts for [{x}]. *)
Definition py_str (x : json) : string :=
  match x with
  | JStr s => s
  | JNull => "None"
  | JBool true => "True"
  | JBool false => "False"
  | JInt z => NilZero.string_of_int (Z.to_int z)
  | _ => str_other x
  end.

(** [item.get(k, default)]; an item that is no dict has no [get]. *)
Definition item_get (k : string) (default : json) (item : json)
  : outcome json :=
  match item with
  | JDict d =>
      match dict_get k d with
      | Some v => Return v
      | None => Return default
      end
  | _ => Raise AttributeError
  end.

(** [f"{item.get('name','')} - {item.get('description','')}"] *)
Definition text_of (item : json) : outcome string :=
  match item_get "name" (JStr "") item with
  | Raise e => Raise e
  | Return name =>
      match item_get "description" (JStr "") item with
      | Raise e => Raise e
      | Return description =>
          Return (py_str name ++ " - " ++ py_str description)
      end
  end.

(** A list comprehension whose element expression can raise. *)
Fixpoint for_each {A B : Type} (f : A -> outcome B) (l : list A)
  : outcome (list B) :=
  match l with
  | [] => Return []
  | x :: l' =>
      match f x with
      | Raise e => Raise e
      | Return y =>
          match for_each f l' with
          | Raise e => Raise e
          | Return ys => Return (y :: ys)
          end
      end
  end.

(** The point of lines 189-193 for one item and its vector. *)
Definition point_of (iv : json * vector) : outcome (PointStruct vector) :=
  let (item, v) := iv in
  match item_get "id" JNull item with
  | Raise e => Raise e
  | Return pid =>
      match _to_uuid (py_str pid) with
      | Raise e => Raise e
      | Return u =>
          match item with
          | JDict d =>
              Return {| id := u;
                        vector_of := v;
                        payload := dict_set "product_id" pid d |}
          | _ => Raise AttributeError
          end
      end
  end.

(** Lines 165-198.  The result is the store as the function leaves it and
    what the function returns or raises. *)
Definition upsert_products (file : products_file) (client : store)
  : store * outcome json :=
  match file with
  | NoFile =>
      (client,
       Return (JDict [("ok", JBool true); ("seeded", JInt 0);
                      ("note", JStr "products.json not found")]))
  | Unreadable e => (client, Raise e)
  | BadJson err =>
      (client, Raise (HTTPException 400 ("Invalid products.json: " ++ err)))
  | Json (JList data) =>
      let client1 := ensure_collection client in
      match for_each text_of data with
      | Raise e => (client1, Raise e)
      | Return texts =>
          let vectors := embed_texts texts in
          match for_each point_of (combine data vectors) with
          | Raise e => (client1, Raise e)
          | Return points =>
              (upsert COLLECTION points client1,
               Return (JDict [("ok", JBool true);
                              ("seeded",
                               JInt (Z.of_nat (List.length points)))]))
          end
      end
  | Json _ =>
      (client, Raise (HTTPException 400 "products.json must be a JSON array"))
  end.

(** Lines 202-208: [getattr(info, "points_count", 0) or 0] is zero for a
    count that is missing, [None] or 0. *)
Definition startup (file : products_file) (client : store)
  : store * outcome unit :=
  let client1 := ensure_collection client in
  let count :=
    match points_count COLLECTION client1 with
    | Some n => if (n =? 0)%Z then 0%Z else n
    | None => 0%Z
    end in
  if (count =? 0)%Z
  then match upsert_products file client1 with
       | (client2, Return _) => (client2, Return tt)
       | (client2, Raise e) => (client2, Raise e)
       end
  else (client1, Return tt).

(** Lines 267-270: [result or {"ok": True}]. *)
Definition reindex (file : products_file) (client : store)
  : store * outcome json :=
  match upsert_products file client with
  | (client1, Return result) =>
      (client1,
       Return (if truthy result then result else JDict [("ok", JBool true)]))
  | (client1, Raise e) => (client1, Raise e)
  end.

End Seeding.

Arguments ensure_collection {store} _ _ _.
Arguments point_of {vector} _ _ _.
Arguments upsert_products {store vector} _ _ _ _ _ _ _ _.
Arguments startup {store vector} _ _ _ _ _ _ _ _ _.
Arguments reindex {store vector} _ _ _ _ _ _ _ _.

(** * Notions the properties are stated with *)

(** ** The language of a pattern *)

Module Lang.

Import Re.

(** [capt r w new]: the word [w] belongs to [r], and a match that reads [w]
    binds the groups [new], the last one closed first. *)
Inductive capt : regex -> string -> caps -> Prop :=
| C_eps : capt Eps "" []
| C_lit c : capt (Lit c) (String c "") []
| C_cls (p : ascii -> bool) c : p c = true -> capt (Cls p) (String c "") []
| C_seq r1 r2 w1 w2 n1 n2 :
    capt r1 w1 n1 -> capt r2 w2 n2 -> capt (Seq r1 r2) (w1 ++ w2) (n2 ++ n1)
| C_alt_l r1 r2 w n : capt r1 w n -> capt (Alt r1 r2) w n
| C_alt_r r1 r2 w n : capt r2 w n -> capt (Alt r1 r2) w n
| C_star_nil r : capt (Star r) "" []
| C_star_cons r w1 w2 n1 n2 :
    capt r w1 n1 -> capt (Star r) w2 n2 ->
    capt (Star r) (w1 ++ w2) (n2 ++ n1)
| C_grp i r w n : capt r w n -> capt (Grp i r) w ((i, w) :: n)
| C_wordb : capt WordB "" [].

(** What a continuation-passing matcher owes its caller: a success comes
    from a word of the pattern followed by a success of the continuation. *)
Definition sound_for (r : regex)
  (f : option ascii -> string -> caps -> cont -> option (string * caps)) : Prop :=
  forall prev s g k res,
    f prev s g k = Some res ->
    exists w s' p' new,
      s = w ++ s' /\ capt r w new /\ k p' s' (new ++ g)%list = Some res.

(** A matcher looks at its continuation only at positions that are not
    before the one it starts from. *)
Definition local
  (f : option ascii -> string -> caps -> cont -> option (string * caps)) : Prop :=
  forall prev s g k1 k2,
    (forall p' s' g',
        String.length s' <= String.length s -> k1 p' s' g' = k2 p' s' g') ->
    f prev s g k1 = f prev s g k2.

(** The characters a word of [r] is made of. *)
Fixpoint alphabet (r : regex) (c : ascii) : bool :=
  match r with
  | Eps | WordB => false
  | Lit a => Ascii.eqb a c
  | Cls p => p c
  | Seq r1 r2 | Alt r1 r2 => alphabet r1 c || alphabet r2 c
  | Star r1 | Grp _ r1 => alphabet r1 c
  end.

(** [all_ascii f]: [f] holds of each of the 256 characters. *)
Definition all_bool (f : bool -> bool) : bool := f true && f false.

Definition all_ascii (f : ascii -> bool) : bool :=
  all_bool (fun b0 => all_bool (fun b1 => all_bool (fun b2 => all_bool (fun b3 =>
  all_bool (fun b4 => all_bool (fun b5 => all_bool (fun b6 => all_bool (fun b7 =>
    f (Ascii b0 b1 b2 b3 b4 b5 b6 b7))))))))).

(** [needs p r]: every word of [r] holds a character of the class [p]. *)
Fixpoint needs (p : ascii -> bool) (r : regex) : bool :=
  match r with
  | Eps | WordB | Star _ => false
  | Lit a => p a
  | Cls q => all_ascii (fun c => implb (q c) (p c))
  | Seq r1 r2 => needs p r1 || needs p r2
  | Alt r1 r2 => needs p r1 && needs p r2
  | Grp _ r1 => needs p r1
  end.

(** [binds i r]: every match of [r] binds the group [i]. *)
Fixpoint binds (i : nat) (r : regex) : bool :=
  match r with
  | Grp j r1 => Nat.eqb j i || binds i r1
  | Seq r1 r2 => binds i r1 || binds i r2
  | Alt r1 r2 => binds i r1 && binds i r2
  | _ => false
  end.

(** [groups_ok Q r]: what a group [i] of [r] can hold satisfies [Q i]. *)
Fixpoint groups_ok (Q : nat -> string -> Prop) (r : regex) : Prop :=
  match r with
  | Grp i r1 => (forall t n, capt r1 t n -> Q i t) /\ groups_ok Q r1
  | Seq r1 r2 | Alt r1 r2 => groups_ok Q r1 /\ groups_ok Q r2
  | Star r1 => groups_ok Q r1
  | _ => True
  end.

End Lang.

(** ** Numerals *)

(** A text that [_NUM] can capture. *)
Definition numeral (t : string) : Prop := exists n, Lang.capt _NUM t n.

Definition digit_or_comma (c : ascii) : bool :=
  Chr.is_digit c || Ascii.eqb "," c.

(** Dropping the commas of a text. *)
Fixpoint drop_commas (s : string) : string :=
  match s with
  | EmptyString => EmptyString
  | String c s' =>
      if Ascii.eqb "," c then drop_commas s' else String c (drop_commas s')
  end.

(** A match whose group [i] holds a numeral. *)
Definition has_numeral (i : nat) (m : rmatch) : Prop :=
  exists t, group i m = Some t /\ numeral t.

(** ** Words *)

Definition no_space (c : ascii) : bool := negb (Chr.is_space c).

(** A word of [split]: not empty and free of whitespace. *)
Definition word (w : string) : Prop := w <> "" /\ Str.all no_space w = true.

(** A character that [lower] leaves alone. *)
Definition lower_fixed (c : ascii) : bool := Ascii.eqb (Chr.lower c) c.

(** ** Price phrases *)

(** The patterns that carry a number, in the order of the passes. *)
Definition numeric_patterns : list regex :=
  [pat_between; pat_dash; pat_under; pat_le; pat_upto; pat_over; pat_ge;
   pat_around; pat_exactly].

Definition no_match (pat : regex) (s : string) : bool :=
  match finditer pat s with
  | [] => true
  | _ :: _ => false
  end.

(** [phrase_free q]: no pattern of the extractor matches anywhere in the
    working text of [q]: [q] holds no recognisable price phrase. *)
Definition phrase_free (q : string) : bool :=
  let s := text (initial q) in
  forallb (fun pat => no_match pat s) numeric_patterns
  && negb (Re.search pat_cheap s) && negb (Re.search pat_expensive s).

(** The working text is in lower case. *)
Definition lower_text (st : state) : Prop :=
  Str.all lower_fixed (text st) = true.

(** The range of a result. *)
Definition range_of (r : option (string * option Flt.float * option Flt.float))
  : option (option Flt.float * option Flt.float) :=
  match r with
  | Some (_, mn, mx) => Some (mn, mx)
  | None => None
  end.

(** The interval match in the working text of ["5-10"]. *)
Definition m_5_10 : rmatch :=
  {| group0 := "5-10"; groups := [(2, "10"); (1, "5")] |}.

(** ** Soft words *)

(** The words of the two soft heuristics, in the order of their patterns. *)
Definition cheap_words : list string := ["cheap"; "inexpensive"; "budget"].

Definition expensive_words : list string :=
  ["expensive"; "premium"; "high-end"].

(** The text that follows the prefix [w] of [s], when [s] begins with
    [w]. *)
Fixpoint after (w s : string) : option string :=
  match w, s with
  | EmptyString, _ => Some s
  | String _ _, EmptyString => None
  | String a w', String b s' => if Ascii.eqb a b then after w' s' else None
  end.

(** [w] stands at the position [(prev, s)] as a word of its own: the text
    goes on with [w], the character before [w] is no word character and
    neither is the one after it. *)
Definition stands (w : string) (prev : option ascii) (s : string) : bool :=
  match after w s with
  | Some rest => negb (Re.word_before prev) && negb (Re.word_after rest)
  | None => false
  end.

(** The first word of the list that stands at the position. *)
Definition word_at (ws : list string) (prev : option ascii) (s : string)
  : option string :=
  List.find (fun w => stands w prev s) ws.

(** Some position from [(prev, s)] on has the property [Q]. *)
Fixpoint occurs (Q : option ascii -> string -> bool) (prev : option ascii)
         (s : string) : bool :=
  Q prev s ||
  match s with
  | EmptyString => false
  | String c s' => occurs Q (Some c) s'
  end.

(** The last character of [w], or [prev] for the empty word. *)
Fixpoint last_of (prev : option ascii) (w : string) : option ascii :=
  match w with
  | EmptyString => prev
  | String c w' => last_of (Some c) w'
  end.

(** The choice [w1|w2|...] between literal words. *)
Fixpoint words_choice (ws : list string) : Re.regex :=
  match ws with
  | [] => Re.Cls (fun _ => false)
  | [w] => Re.str w
  | w :: ws' => Re.Alt (Re.str w) (words_choice ws')
  end.

(** The pattern [\b(w1|w2|...)\b]. *)
Definition bounded_words (ws : list string) : Re.regex :=
  Re.Seq Re.WordB (Re.Seq (Re.Grp 1 (words_choice ws)) Re.WordB).

(** A word that begins and ends with a word character and holds no
    whitespace. *)
Definition plain_word (w : string) : bool :=
  Re.word_after w && Re.word_before (last_of None w) && Str.all no_space w.

(** A word of the list stands at the position. *)
Definition word_here (ws : list string) (prev : option ascii) (s : string)
  : bool :=
  is_some (word_at ws prev s).

(** ** Bounds *)

(** A float that is a number and is not negative: zero, a positive finite
    number or plus infinity. *)
Definition bound_ok (f : Flt.float) : bool :=
  match f with
  | S754_nan => false
  | S754_zero s | S754_infinity s | S754_finite s _ _ => negb s
  end.

Definition opt_ok (b : option Flt.float) : Prop :=
  match b with
  | Some f => bound_ok f = true
  | None => True
  end.

(** Both bounds of a state are numbers that are not negative. *)
Definition range_ok (st : state) : Prop :=
  opt_ok (min_price st) /\ opt_ok (max_price st).

(** [tighter a b]: a bound that [a] has is still there in [b], and is at
    least as strict. *)
Definition tighter (a b : state) : Prop :=
  (forall v, min_price a = Some v ->
             exists v', min_price b = Some v' /\ Flt.leb v v' = true)
  /\ (forall v, max_price a = Some v ->
                exists v', max_price b = Some v' /\ Flt.leb v' v = true).

(** The four loop bodies of the extractor. *)
Definition is_step (body : state -> rmatch -> option state) : Prop :=
  body = interval_step \/ body = upper_step \/ body = lower_step
  \/ body = approx_step.


(** ** Where the characters of a text come from *)

(** The characters of a text that are not whitespace. *)
Fixpoint solid (s : string) : string :=
  match s with
  | EmptyString => EmptyString
  | String c s' => if Chr.is_space c then solid s' else String c (solid s')
  end.

(** [subseq a b]: [a] is [b] with some characters left out. *)
Inductive subseq : string -> string -> Prop :=
| subseq_nil : subseq "" ""
| subseq_keep c a b : subseq a b -> subseq (String c a) (String c b)
| subseq_drop c a b : subseq a b -> subseq a (String c b).

(** An item that is a dict. *)
Definition is_dict (item : json) : Prop := exists d, item = JDict d.

(** The keys of a dict are all different. *)
Definition keys_unique (d : dict) : Prop := NoDup (List.map fst d).

(** The id of an item as [item.get("id")] gives it. *)
Definition id_of (d : dict) : json :=
  match dict_get "id" d with
  | Some x => x
  | None => JNull
  end.

(** ** A store for the examples *)

(** The collections by name, each with the points upserted into it. *)
Definition toy_store : Type := list (string * list (PointStruct unit)).

Definition toy_collections (c : toy_store) : list string := List.map fst c.

Definition toy_create (n : string) (p : VectorParams) (c : toy_store)
  : toy_store := (n, []) :: c.

Fixpoint toy_count (n : string) (c : toy_store) : option Z :=
  match c with
  | [] => None
  | (k, ps) :: c' =>
      if String.eqb k n then Some (Z.of_nat (List.length ps))
      else toy_count n c'
  end.

Definition toy_upsert (n : string) (ps : list (PointStruct unit))
           (c : toy_store) : toy_store :=
  List.map (fun kp : string * list (PointStruct unit) =>
              if String.eqb (fst kp) n then (fst kp, (ps ++ snd kp)%list)
              else kp) c.

Definition toy_embed (texts : list string) : list unit :=
  List.map (fun _ => tt) texts.

(** The UTF-8 form that the lone surrogate U+D800 would have. *)
Definition toy_surrogate : string :=
  String (ascii_of_nat 237) (String (ascii_of_nat 160)
    (String (ascii_of_nat 128) "")).

Definition toy_uuid (name : string) : option string :=
  if Str.contains toy_surrogate name then None
  else Some ("uuid5(" ++ name ++ ")").

Definition toy_str (x : json) : string := "?".

(** Three products, the second without id, the third with an id that
    holds a lone surrogate. *)
Definition soap : dict :=
  [("id", JInt 7); ("name", JStr "soap"); ("price", JInt 3)].

Definition towel : dict := [("name", JStr "towel")].

Definition brush : dict :=
  [("id", JStr ("b" ++ toy_surrogate)); ("name", JStr "brush")].

(** * Properties *)

(** ** Texts *)

Module StrFacts.

Lemma length_app (a b : string) :
  String.length (a ++ b) = String.length a + String.length b.
Proof. induction a as [|c a IH]; simpl; [reflexivity | now rewrite IH]. Qed.

Lemma app_empty_r (a : string) : a ++ "" = a.
Proof. induction a as [|c a IH]; simpl; [reflexivity | now rewrite IH]. Qed.

Lemma app_assoc (a b c : string) : (a ++ b) ++ c = a ++ b ++ c.
Proof. induction a as [|x a IH]; simpl; [reflexivity | now rewrite IH]. Qed.

Lemma take_app (w s : string) : Str.take (String.length w) (w ++ s) = w.
Proof. induction w as [|c w IH]; simpl; [now destruct s | now rewrite IH]. Qed.

(** The text a match has consumed is recovered from the two lengths. *)
Lemma take_consumed (w s : string) :
  Str.take (String.length (w ++ s) - String.length s) (w ++ s) = w.
Proof.
  rewrite length_app.
  replace (String.length w + String.length s - String.length s)
    with (String.length w) by lia.
  apply take_app.
Qed.

Lemma all_app (p : ascii -> bool) (a b : string) :
  Str.all p (a ++ b) = Str.all p a && Str.all p b.
Proof.
  induction a as [|c a IH]; simpl; [reflexivity|].
  now rewrite IH, andb_assoc.
Qed.

Lemma any_app (p : ascii -> bool) (a b : string) :
  Str.any p (a ++ b) = Str.any p a || Str.any p b.
Proof.
  induction a as [|c a IH]; simpl; [reflexivity|].
  now rewrite IH, orb_assoc.
Qed.

Lemma all_impl (p q : ascii -> bool) (s : string) :
  (forall c, p c = true -> q c = true) ->
  Str.all p s = true -> Str.all q s = true.
Proof.
  intros Hpq. induction s as [|c s IH]; simpl; [reflexivity|].
  intros H. apply andb_true_iff in H as [Hc Hs].
  now rewrite (Hpq _ Hc), IH.
Qed.

Lemma is_empty_true (s : string) : Str.is_empty s = true <-> s = "".
Proof. destruct s; simpl; split; congruence. Qed.

Lemma is_empty_false (s : string) : Str.is_empty s = false <-> s <> "".
Proof. destruct s; simpl; split; congruence. Qed.

End StrFacts.

(** ** The matcher is sound for the language of its pattern *)

Module ReFacts.

Import Re Lang.

#[local] Hint Constructors capt : core.

Lemma star_loop_sound (r : regex) body :
  sound_for r body ->
  forall n k prev s g res,
    star_loop body k n prev s g = Some res ->
    exists w s' p' new,
      s = w ++ s' /\ capt (Star r) w new /\ k p' s' (new ++ g)%list = Some res.
Proof.
  intros Hbody n. induction n as [|n IH]; intros k prev s g res H; simpl in H.
  - exists "", s, prev, []. auto.
  - destruct (body prev s g _) as [x|] eqn:E.
    + injection H as ->.
      apply Hbody in E as (w1 & s1 & p1 & n1 & -> & Hc1 & Hk).
      destruct (Nat.ltb _ _).
      * apply IH in Hk as (w2 & s2 & p2 & n2 & -> & Hc2 & Hk).
        exists (w1 ++ w2), s2, p2, (n2 ++ n1)%list.
        rewrite StrFacts.app_assoc, <- List.app_assoc. auto.
      * exists (w1 ++ ""), s1, p1, ([] ++ n1)%list.
        rewrite StrFacts.app_assoc. simpl. split; [reflexivity|]. split; [|exact Hk].
        apply (C_star_cons r w1 "" n1 []); auto.
    + exists "", s, prev, []. auto.
Qed.

Theorem run_sound (r : regex) : sound_for r (run r).
Proof.
  induction r as [ |c|p|r1 IH1 r2 IH2|r1 IH1 r2 IH2|r IH|i r IH| ];
    intros prev s g k res H; simpl in H.
  - exists "", s, prev, []. auto.
  - destruct s as [|a s']; [discriminate|].
    destruct (Ascii.eqb a c) eqn:E; [|discriminate].
    apply Ascii.eqb_eq in E as ->.
    exists (String c ""), s', (Some c), []. auto.
  - destruct s as [|a s']; [discriminate|].
    destruct (p a) eqn:E; [|discriminate].
    exists (String a ""), s', (Some a), []. auto.
  - apply IH1 in H as (w1 & s1 & p1 & n1 & -> & Hc1 & H).
    apply IH2 in H as (w2 & s2 & p2 & n2 & -> & Hc2 & H).
    exists (w1 ++ w2), s2, p2, (n2 ++ n1)%list.
    rewrite StrFacts.app_assoc, <- List.app_assoc. auto.
  - destruct (run r1 prev s g k) as [x|] eqn:E.
    + injection H as ->.
      apply IH1 in E as (w & s' & p' & n & -> & Hc & Hk).
      exists w, s', p', n. auto.
    + apply IH2 in H as (w & s' & p' & n & -> & Hc & Hk).
      exists w, s', p', n. auto.
  - exact (star_loop_sound r (run r) IH (S (String.length s)) k prev s g res H).
  - apply IH in H as (w & s' & p' & n & -> & Hc & Hk).
    rewrite StrFacts.take_consumed in Hk.
    exists w, s', p', ((i, w) :: n). auto.
  - destruct (xorb _ _); [|discriminate].
    exists "", s, prev, []. auto.
Qed.

(** A match object holds a word of the pattern and its groups. *)
Lemma match_at_sound r prev s m :
  match_at r prev s = Some m -> capt r (group0 m) (groups m).
Proof.
  unfold match_at. intros H.
  destruct (run r prev s [] _) as [[s' g]|] eqn:E; [|discriminate].
  injection H as <-. simpl.
  apply run_sound in E as (w & s1 & p1 & n & -> & Hc & Hk).
  injection Hk as -> <-.
  rewrite StrFacts.take_consumed, List.app_nil_r. exact Hc.
Qed.

Lemma finditer_from_sound r s : forall prev skip,
  Forall (fun m => capt r (group0 m) (groups m)) (finditer_from r prev skip s).
Proof.
  induction s as [|c s IH]; intros prev skip; simpl.
  - destruct skip; [|constructor].
    destruct (match_at r prev "") eqn:E; repeat constructor.
    now apply match_at_sound in E.
  - destruct skip; [|apply IH].
    destruct (match_at r prev (String c s)) eqn:E; [|apply IH].
    constructor; [now apply match_at_sound in E | apply IH].
Qed.

Lemma finditer_sound r s :
  Forall (fun m => capt r (group0 m) (groups m)) (finditer r s).
Proof. apply finditer_from_sound. Qed.

End ReFacts.

(** ** The bound on the rounds of a repetition is never reached *)

Module Fuel.

Import Re Lang.

Lemma star_loop_local body :
  local body -> forall n, local (fun prev s g k => star_loop body k n prev s g).
Proof.
  intros Hbody n. induction n as [|n IH]; intros prev s g k1 k2 Hk; simpl.
  - apply Hk. lia.
  - rewrite (Hk prev s g) by lia.
    erewrite Hbody; [reflexivity|].
    intros p' s' g' Hle. cbv beta.
    destruct (Nat.ltb (String.length s') (String.length s)) eqn:E.
    + apply IH. intros p2 s2 g2 H2. apply Hk. lia.
    + apply Hk. exact Hle.
Qed.

Theorem run_local r : local (run r).
Proof.
  induction r as [ |c|p|r1 IH1 r2 IH2|r1 IH1 r2 IH2|r IH|i r IH| ];
    intros prev s g k1 k2 Hk; simpl.
  - apply Hk. lia.
  - destruct s as [|a s']; [reflexivity|].
    destruct (Ascii.eqb a c); [|reflexivity]. apply Hk. simpl. lia.
  - destruct s as [|a s']; [reflexivity|].
    destruct (p a); [|reflexivity]. apply Hk. simpl. lia.
  - apply IH1. intros p' s' g' Hle. apply IH2.
    intros p2 s2 g2 H2. apply Hk. lia.
  - rewrite (IH1 prev s g k1 k2 Hk), (IH2 prev s g k1 k2 Hk). reflexivity.
  - exact (star_loop_local (run r) IH (S (String.length s)) prev s g k1 k2 Hk).
  - apply IH. intros p' s' g' Hle. apply Hk. exact Hle.
  - destruct (xorb _ _); [|reflexivity]. apply Hk. lia.
Qed.

(** Any bound above the length of the text gives the same repetition. *)
Theorem star_loop_fuel body :
  local body ->
  forall n m prev s g k,
    String.length s < n -> String.length s < m ->
    star_loop body k n prev s g = star_loop body k m prev s g.
Proof.
  intros Hbody n. induction n as [|n IH]; intros m prev s g k Hn Hm; [lia|].
  destruct m as [|m]; [lia|]. simpl.
  erewrite Hbody; [reflexivity|].
  intros p' s' g' Hle. cbv beta.
  destruct (Nat.ltb (String.length s') (String.length s)) eqn:E; [|reflexivity].
  apply Nat.ltb_lt in E. apply IH; lia.
Qed.

Corollary run_star_fuel r n prev s g k :
  String.length s < n ->
  run (Star r) prev s g k = star_loop (run r) k n prev s g.
Proof.
  intros Hn.
  change (run (Star r) prev s g k)
    with (star_loop (run r) k (S (String.length s)) prev s g).
  apply star_loop_fuel; [apply run_local | lia | exact Hn].
Qed.

End Fuel.

(** ** What the words of a pattern look like *)

Module Shape.

Import Re Lang ReFacts.

Lemma capt_alphabet r w n : capt r w n -> Str.all (alphabet r) w = true.
Proof.
  induction 1; simpl; try reflexivity.
  - now rewrite Ascii.eqb_refl.
  - now rewrite H.
  - rewrite StrFacts.all_app. apply andb_true_iff. split.
    + eapply StrFacts.all_impl; [|exact IHcapt1]. intros c ->. reflexivity.
    + eapply StrFacts.all_impl; [|exact IHcapt2]. intros c ->. apply orb_true_r.
  - eapply StrFacts.all_impl; [|exact IHcapt]. intros c ->. reflexivity.
  - eapply StrFacts.all_impl; [|exact IHcapt]. intros c ->. apply orb_true_r.
  - rewrite StrFacts.all_app. apply andb_true_iff. split.
    + eapply StrFacts.all_impl; [|exact IHcapt1]. auto.
    + eapply StrFacts.all_impl; [|exact IHcapt2]. auto.
  - eapply StrFacts.all_impl; [|exact IHcapt]. auto.
Qed.

Lemma all_bool_spec f : all_bool f = true -> forall b, f b = true.
Proof.
  unfold all_bool. intros H b. apply andb_true_iff in H as [Ht Hf].
  now destruct b.
Qed.

Lemma all_ascii_spec f : all_ascii f = true -> forall c, f c = true.
Proof.
  unfold all_ascii. intros H [b0 b1 b2 b3 b4 b5 b6 b7].
  apply (all_bool_spec _) with (b := b0) in H.
  apply (all_bool_spec _) with (b := b1) in H.
  apply (all_bool_spec _) with (b := b2) in H.
  apply (all_bool_spec _) with (b := b3) in H.
  apply (all_bool_spec _) with (b := b4) in H.
  apply (all_bool_spec _) with (b := b5) in H.
  apply (all_bool_spec _) with (b := b6) in H.
  apply (all_bool_spec _) with (b := b7) in H.
  exact H.
Qed.

Lemma capt_needs p r w n :
  capt r w n -> needs p r = true -> Str.any p w = true.
Proof.
  induction 1; simpl; intros Hn; try discriminate.
  - now rewrite Hn.
  - pose proof (all_ascii_spec _ Hn c) as Hc. simpl in Hc.
    rewrite H in Hc. simpl in Hc. now rewrite Hc.
  - rewrite StrFacts.any_app. apply orb_true_iff.
    apply orb_true_iff in Hn as [Hn|Hn]; auto.
  - apply andb_true_iff in Hn as [Hn _]. auto.
  - apply andb_true_iff in Hn as [_ Hn]. auto.
  - auto.
Qed.

Lemma lookup_app i (a b : caps) :
  lookup i (a ++ b) =
  match lookup i a with Some t => Some t | None => lookup i b end.
Proof.
  induction a as [|[j t] a IH]; simpl; [reflexivity|].
  now destruct (Nat.eqb j i).
Qed.

Lemma capt_binds i r w n :
  capt r w n -> binds i r = true -> exists t, lookup i n = Some t.
Proof.
  induction 1; simpl; intros Hb; try discriminate.
  - rewrite lookup_app. apply orb_true_iff in Hb as [Hb|Hb].
    + destruct (lookup i n2); eauto.
    + destruct (IHcapt2 Hb) as [t ->]. eauto.
  - apply andb_true_iff in Hb as [Hb _]. auto.
  - apply andb_true_iff in Hb as [_ Hb]. auto.
  - destruct (Nat.eqb i0 i); eauto.
Qed.

Lemma capt_groups Q r w n :
  capt r w n -> groups_ok Q r -> Forall (fun e => Q (fst e) (snd e)) n.
Proof.
  induction 1; simpl; intros Hg; try constructor.
  - destruct Hg. apply Forall_app. auto.
  - destruct Hg. auto.
  - destruct Hg. auto.
  - apply Forall_app. auto.
  - simpl. destruct Hg as [Hq _]. eauto.
  - destruct Hg. auto.
Qed.

Lemma lookup_In i t (n : caps) : lookup i n = Some t -> In (i, t) n.
Proof.
  induction n as [|[j u] n IH]; simpl; [discriminate|].
  destruct (Nat.eqb j i) eqn:E.
  - intros [= ->]. apply Nat.eqb_eq in E as ->. now left.
  - auto.
Qed.

(** A bound group of a match holds a word of the group's own pattern. *)
Lemma group_spec Q i r m :
  capt r (group0 m) (groups m) -> binds i r = true -> groups_ok Q r ->
  exists t, group i m = Some t /\ Q i t.
Proof.
  intros Hc Hb Hg. unfold group.
  destruct (capt_binds i _ _ _ Hc Hb) as [t Ht].
  exists t. split; [exact Ht|].
  apply lookup_In in Ht.
  pose proof (capt_groups Q _ _ _ Hc Hg) as HF.
  rewrite Forall_forall in HF. exact (HF _ Ht).
Qed.

End Shape.

(** ** Floats read from numerals are numbers *)

Module FltFacts.

Import Flt.

Lemma shr_1_nonneg mrs : (0 <= shr_m mrs)%Z -> (0 <= shr_m (shr_1 mrs))%Z.
Proof.
  destruct mrs as [m r s]. simpl.
  destruct m as [|p|p]; simpl; try lia; destruct p; simpl; lia.
Qed.

Lemma iter_pos_nonneg n : forall mrs,
  (0 <= shr_m mrs)%Z -> (0 <= shr_m (iter_pos shr_1 n mrs))%Z.
Proof.
  induction n as [n IH|n IH|]; intros mrs H; simpl.
  - apply IH, IH, shr_1_nonneg, H.
  - apply IH, IH, H.
  - apply shr_1_nonneg, H.
Qed.

Lemma shr_fexp_nonneg m e l :
  (0 <= m)%Z -> (0 <= shr_m (fst (shr_fexp prec emax m e l)))%Z.
Proof.
  intros H. unfold shr_fexp, shr.
  assert (H0 : (0 <= shr_m (shr_record_of_loc m l))%Z)
    by (destruct l as [|[]]; exact H).
  destruct (_ - e)%Z; simpl; auto using iter_pos_nonneg.
Qed.

Lemma round_nearest_even_nonneg m l :
  (0 <= m)%Z -> (0 <= round_nearest_even m l)%Z.
Proof.
  intros H. destruct l as [|[]]; simpl; try lia.
  destruct (Z.even m); lia.
Qed.

Lemma binary_round_aux_number s m e l :
  (0 <= m)%Z -> is_nan (binary_round_aux prec emax s m e l) = false.
Proof.
  intros H. unfold binary_round_aux.
  pose proof (shr_fexp_nonneg m e l H) as H1.
  destruct (shr_fexp prec emax m e l) as [mrs' e']. simpl in H1.
  pose proof (round_nearest_even_nonneg _ (loc_of_shr_record mrs') H1) as H2.
  pose proof (shr_fexp_nonneg _ e' loc_Exact H2) as H3.
  destruct (shr_fexp prec emax _ e' loc_Exact) as [mrs'' e'']. simpl in H3.
  destruct (shr_m mrs''); [reflexivity| |lia].
  now destruct (e'' <=? emax - prec)%Z.
Qed.

Lemma of_decimal_number n k : is_nan (of_decimal n k) = false.
Proof.
  destruct n as [|p]; [reflexivity|].
  unfold of_decimal, SFdiv, SFdiv_core_binary.
  set (m' := match _ with Z.pos _ => _ | Z0 => _ | Z.neg _ => _ end).
  assert (Hm : (0 <= m')%Z).
  { subst m'. destruct (_ - _ - _)%Z; try lia.
    apply Z.shiftl_nonneg. lia. }
  pose proof (Z.div_pos m' (Z.pos (pow10 k)) Hm eq_refl) as Hq.
  unfold Z.div in Hq.
  destruct (Z.div_eucl m' (Z.pos (pow10 k))) as [q r]. simpl in Hq.
  now apply binary_round_aux_number.
Qed.

Lemma py_float_number s f : py_float s = Some f -> is_nan f = false.
Proof.
  unfold py_float. destruct (span_digits s) as [ip rest].
  destruct rest as [|c fp].
  - destruct (Str.is_empty ip); [discriminate|].
    intros [= <-]. apply of_decimal_number.
  - destruct (_ && _); [|discriminate].
    intros [= <-]. apply of_decimal_number.
Qed.

(** On numbers, [<] is a strict total order up to equality, which is what
    [min], [max] and [sorted] rely on. *)
Lemma pos_compare_cont_opp p q c :
  Pos.compare_cont (CompOpp c) q p = CompOpp (Pos.compare_cont c p q).
Proof. symmetry. apply Pos.compare_cont_antisym. Qed.

Lemma compare_antisym x y :
  is_nan x = false -> is_nan y = false ->
  exists c, SFcompare x y = Some c /\ SFcompare y x = Some (CompOpp c).
Proof.
  intros Hx Hy.
  destruct x as [sx|sx| |sx mx ex]; try discriminate;
  destruct y as [sy|sy| |sy my ey]; try discriminate; simpl;
    try (destruct sx; try destruct sy; eexists; split; reflexivity);
    try (destruct sy; eexists; split; reflexivity).
  destruct sx, sy; try (eexists; split; reflexivity).
  - rewrite (Z.compare_antisym ex ey).
    destruct (ex ?= ey)%Z; simpl; try (eexists; split; reflexivity).
    eexists; split; [reflexivity|].
    rewrite <- (pos_compare_cont_opp mx my Eq). reflexivity.
  - rewrite (Z.compare_antisym ex ey).
    destruct (ex ?= ey)%Z; simpl; try (eexists; split; reflexivity).
    eexists; split; [reflexivity|].
    rewrite <- (pos_compare_cont_opp mx my Eq). reflexivity.
Qed.

Lemma ltb_leb x y : ltb x y = true -> leb x y = true.
Proof.
  unfold ltb, leb, SFltb, SFleb. now destruct (SFcompare x y) as [[]|].
Qed.

Lemma not_ltb_leb x y :
  is_nan x = false -> is_nan y = false -> ltb y x = false -> leb x y = true.
Proof.
  intros Hx Hy. unfold ltb, leb, SFltb, SFleb.
  destruct (compare_antisym x y Hx Hy) as (c & -> & ->).
  now destruct c.
Qed.

Lemma leb_refl x : is_nan x = false -> leb x x = true.
Proof.
  intros Hx. unfold leb, SFleb.
  destruct (compare_antisym x x Hx Hx) as (c & H1 & H2).
  rewrite H1 in H2 |- *. injection H2 as H2. now destruct c.
Qed.

(** [sorted] puts the smaller number first. *)
Lemma sorted2_ordered a b lo hi :
  is_nan a = false -> is_nan b = false ->
  sorted2 a b = (lo, hi) -> leb lo hi = true.
Proof.
  intros Ha Hb. unfold sorted2. destruct (ltb b a) eqn:E; intros [= <- <-].
  - now apply ltb_leb.
  - now apply not_ltb_leb.
Qed.

Lemma sorted2_swap a b :
  is_nan a = false -> is_nan b = false ->
  ltb a b = true -> sorted2 a b = (a, b) /\ sorted2 b a = (a, b).
Proof.
  intros Ha Hb H. unfold sorted2. rewrite H.
  destruct (ltb b a) eqn:E; [|auto].
  exfalso. revert H E. unfold ltb, SFltb.
  destruct (compare_antisym a b Ha Hb) as (c & -> & ->). now destruct c.
Qed.

(** [max] yields a bound that is no lower, [min] one that is no higher. *)
Lemma max_ge a b :
  is_nan a = false -> is_nan b = false ->
  leb a (max a b) = true /\ leb b (max a b) = true.
Proof.
  intros Ha Hb. unfold max. destruct (ltb a b) eqn:E.
  - split; [now apply ltb_leb | now apply leb_refl].
  - split; [now apply leb_refl | now apply not_ltb_leb].
Qed.

Lemma min_le a b :
  is_nan a = false -> is_nan b = false ->
  leb (min a b) a = true /\ leb (min a b) b = true.
Proof.
  intros Ha Hb. unfold min. destruct (ltb b a) eqn:E.
  - split; [now apply ltb_leb | now apply leb_refl].
  - split; [now apply leb_refl | now apply not_ltb_leb].
Qed.

End FltFacts.

(** ** Every captured numeral is read as a number *)

Module Numeral.

Import Re Lang ReFacts Shape.

#[local] Arguments Ascii.eqb : simpl never.

Lemma capt_seq_inv r1 r2 w n :
  capt (Seq r1 r2) w n ->
  exists w1 w2 n1 n2,
    w = w1 ++ w2 /\ n = (n2 ++ n1)%list /\ capt r1 w1 n1 /\ capt r2 w2 n2.
Proof. inversion 1; subst; eauto 10. Qed.

Lemma capt_alt_inv r1 r2 w n :
  capt (Alt r1 r2) w n -> capt r1 w n \/ capt r2 w n.
Proof. inversion 1; subst; auto. Qed.

Lemma capt_lit_inv c w n : capt (Lit c) w n -> w = String c "" /\ n = [].
Proof. inversion 1; subst; auto. Qed.

Lemma capt_eps_inv w n : capt Eps w n -> w = "" /\ n = [].
Proof. inversion 1; subst; auto. Qed.

Lemma replace_from_commas s : Str.replace_from "," "" 0 s = drop_commas s.
Proof.
  induction s as [|c s IH]; [reflexivity|].
  simpl. rewrite andb_true_r. destruct (Ascii.eqb "," c); simpl; now rewrite IH.
Qed.

Lemma replace_commas s : Str.replace "," "" s = drop_commas s.
Proof. apply replace_from_commas. Qed.

Lemma drop_commas_app a b :
  drop_commas (a ++ b) = drop_commas a ++ drop_commas b.
Proof.
  induction a as [|c a IH]; simpl; [reflexivity|].
  destruct (Ascii.eqb "," c); simpl; now rewrite IH.
Qed.

Lemma is_digit_not_comma c : Chr.is_digit c = true -> Ascii.eqb "," c = false.
Proof.
  intros H. destruct (Ascii.eqb "," c) eqn:E; [|reflexivity].
  apply Ascii.eqb_eq in E. subst c. discriminate.
Qed.

Lemma drop_commas_digits d :
  Str.all Chr.is_digit d = true -> drop_commas d = d.
Proof.
  induction d as [|c d IH]; simpl; [reflexivity|].
  intros H. apply andb_true_iff in H as [Hc Hd].
  now rewrite (is_digit_not_comma _ Hc), IH.
Qed.

Lemma drop_commas_all a :
  Str.all digit_or_comma a = true ->
  Str.all Chr.is_digit (drop_commas a) = true.
Proof.
  induction a as [|c a IH]; simpl; [reflexivity|].
  intros H. apply andb_true_iff in H as [Hc Ha].
  unfold digit_or_comma in Hc.
  destruct (Ascii.eqb "," c); [auto|].
  rewrite orb_false_r in Hc. simpl. now rewrite Hc, IH.
Qed.

Lemma drop_commas_any a :
  Str.any Chr.is_digit a = true -> drop_commas a <> "".
Proof.
  induction a as [|c a IH]; simpl; [discriminate|].
  intros H. destruct (Ascii.eqb "," c) eqn:E; [|discriminate].
  apply Ascii.eqb_eq in E. subst c. simpl in H. auto.
Qed.

Lemma span_digits_app x y :
  Str.all Chr.is_digit x = true ->
  Str.starts_with "." y = true \/ y = "" ->
  Flt.span_digits (x ++ y) = (x, y).
Proof.
  intros Hx Hy. induction x as [|c x IH]; simpl.
  - destruct Hy as [Hy| ->]; [|reflexivity].
    destruct y as [|c y]; [discriminate|]. simpl in Hy.
    rewrite andb_true_r in Hy. apply Ascii.eqb_eq in Hy. now subst c.
  - simpl in Hx. apply andb_true_iff in Hx as [Hc Hx].
    now rewrite Hc, (IH Hx).
Qed.

Lemma int_part_alphabet c :
  alphabet (Alt (Seq (Rep1to3 digit) (Star (Seq (Lit ",") (Rep3 digit))))
                (Plus digit)) c = true ->
  digit_or_comma c = true.
Proof.
  unfold digit_or_comma. simpl.
  destruct (Chr.is_digit c), (Ascii.eqb "," c); simpl; auto.
Qed.

Lemma numeral_shape t :
  numeral t ->
  exists a b,
    t = a ++ b /\ Str.all digit_or_comma a = true
    /\ Str.any Chr.is_digit a = true
    /\ (b = "" \/ exists d, b = String "." d /\ Str.all Chr.is_digit d = true).
Proof.
  intros [n H]. unfold _NUM in H.
  apply capt_seq_inv in H as (a & b & na & nb & -> & _ & Ha & Hb).
  exists a, b. split; [reflexivity|]. split; [|split].
  - apply capt_alphabet in Ha.
    eapply StrFacts.all_impl; [|exact Ha]. apply int_part_alphabet.
  - eapply capt_needs; [exact Ha|]. vm_compute. reflexivity.
  - apply capt_alt_inv in Hb as [Hb|Hb].
    + apply capt_seq_inv in Hb as (p & d & np & nd & -> & _ & Hp & Hd).
      apply capt_lit_inv in Hp as [-> _].
      right. exists d. split; [reflexivity|].
      apply capt_alphabet in Hd.
      eapply StrFacts.all_impl; [|exact Hd].
      intros c. simpl. now destruct (Chr.is_digit c).
    + apply capt_eps_inv in Hb as [-> _]. now left.
Qed.

Theorem numeral_float t :
  numeral t -> exists f, _to_float t = Some f /\ Flt.is_nan f = false.
Proof.
  intros H.
  enough (exists f, _to_float t = Some f) as [f Hf].
  { exists f. split; [exact Hf|]. eapply FltFacts.py_float_number, Hf. }
  apply numeral_shape in H as (a & b & -> & Hall & Hany & Hb).
  unfold _to_float. rewrite replace_commas, drop_commas_app.
  pose proof (drop_commas_all a Hall) as Hd.
  pose proof (drop_commas_any a Hany) as Hne.
  unfold Flt.py_float.
  destruct Hb as [->|(d & -> & Hdig)].
  - simpl drop_commas. rewrite span_digits_app by auto.
    destruct (drop_commas a); [congruence|]. simpl. eauto.
  - simpl drop_commas. rewrite (drop_commas_digits d Hdig).
    rewrite span_digits_app by (auto; left; reflexivity).
    rewrite Ascii.eqb_refl, Hdig. simpl.
    destruct (drop_commas a); [congruence|]. simpl. eauto.
Qed.

End Numeral.

(** ** Words and whitespace *)

Module Words.

Import Str.

Lemma split_words s : Forall word (split s).
Proof.
  induction s as [|c s IH]; simpl; [constructor|].
  destruct (Chr.is_space c) eqn:Ec; [exact IH|].
  assert (Hc : word (String c "")).
  { split; [discriminate|]. simpl. unfold no_space. now rewrite Ec. }
  destruct (starts_with_space s); [now constructor|].
  destruct (split s) as [|w ws]; [constructor; [exact Hc | constructor]|].
  inversion IH as [|? ? [Hne Hw] Hws]; subst.
  constructor; [|exact Hws].
  split; [discriminate|]. simpl. unfold no_space at 1. now rewrite Ec, Hw.
Qed.

Lemma split_word_then_space w c rest :
  word w -> Chr.is_space c = true ->
  split (w ++ String c rest) = w :: split rest.
Proof.
  intros [Hne Hw] Hc. induction w as [|a w IH]; [congruence|].
  simpl in Hw. apply andb_true_iff in Hw as [Ha Hw].
  unfold no_space in Ha. apply negb_true_iff in Ha.
  simpl. rewrite Ha. destruct w as [|b w].
  - simpl. now rewrite Hc.
  - simpl in Hw. apply andb_true_iff in Hw as [Hb Hw'].
    unfold no_space in Hb. apply negb_true_iff in Hb.
    simpl starts_with_space. rewrite Hb.
    rewrite IH; [reflexivity|discriminate|].
    simpl. unfold no_space at 1. now rewrite Hb, Hw'.
Qed.

Lemma split_word w : word w -> split w = [w].
Proof.
  intros [Hne Hw]. induction w as [|a w IH]; [congruence|].
  simpl in Hw. apply andb_true_iff in Hw as [Ha Hw].
  unfold no_space in Ha. apply negb_true_iff in Ha.
  simpl. rewrite Ha. destruct w as [|b w]; [reflexivity|].
  simpl in Hw. apply andb_true_iff in Hw as [Hb Hw'].
  unfold no_space in Hb. apply negb_true_iff in Hb.
  simpl starts_with_space. rewrite Hb.
  rewrite IH; [reflexivity|discriminate|].
  simpl. unfold no_space at 1. now rewrite Hb, Hw'.
Qed.

(** Splitting what [join] has put together gives the words back. *)
Lemma split_join ws : Forall word ws -> split (join " " ws) = ws.
Proof.
  induction 1 as [|w ws Hw Hws IH]; [reflexivity|].
  destruct ws as [|w2 ws].
  - simpl. now apply split_word.
  - change (join " " (w :: w2 :: ws)) with (w ++ String " " (join " " (w2 :: ws))).
    rewrite split_word_then_space by (auto; reflexivity).
    now rewrite IH.
Qed.

Theorem squish_idempotent s : squish (squish s) = squish s.
Proof. unfold squish. now rewrite split_join by apply split_words. Qed.

Lemma starts_with_space_app_space s c :
  Chr.is_space c = true ->
  starts_with_space (s ++ String c "") = starts_with_space s.
Proof. intros Hc. destruct s; simpl; auto. Qed.

Lemma split_app_space s c :
  Chr.is_space c = true -> split (s ++ String c "") = split s.
Proof.
  intros Hc. induction s as [|a s IH]; simpl.
  - now rewrite Hc.
  - rewrite IH, starts_with_space_app_space by exact Hc. reflexivity.
Qed.

Lemma split_lstrip s : split (lstrip s) = split s.
Proof.
  induction s as [|a s IH]; simpl; [reflexivity|].
  destruct (Chr.is_space a) eqn:E; [exact IH|].
  simpl. now rewrite E.
Qed.

Lemma rstrip_empty_split s : rstrip s = "" -> split s = [].
Proof.
  induction s as [|a s IH]; simpl; [reflexivity|].
  destruct (is_empty (rstrip s) && Chr.is_space a) eqn:E; [|discriminate].
  apply andb_true_iff in E as [Er Ea]. rewrite Ea. intros _.
  apply IH. now apply StrFacts.is_empty_true.
Qed.

Lemma starts_with_space_rstrip s :
  starts_with_space (rstrip s) = starts_with_space s.
Proof.
  destruct s as [|a s]; simpl; [reflexivity|].
  destruct (is_empty (rstrip s) && Chr.is_space a) eqn:E; [|reflexivity].
  apply andb_true_iff in E as [_ ->]. reflexivity.
Qed.

Lemma split_rstrip s : split (rstrip s) = split s.
Proof.
  induction s as [|a s IH]; [reflexivity|].
  simpl rstrip.
  destruct (is_empty (rstrip s) && Chr.is_space a) eqn:E.
  - symmetry. apply rstrip_empty_split. simpl. now rewrite E.
  - simpl. now rewrite IH, starts_with_space_rstrip.
Qed.

Lemma split_strip s : split (strip s) = split s.
Proof. unfold strip. now rewrite split_rstrip, split_lstrip. Qed.

(** Padding and trimming do not change the words. *)
Lemma squish_padded s : squish (" " ++ strip s ++ " ") = squish s.
Proof.
  unfold squish. simpl.
  now rewrite split_app_space, split_strip.
Qed.

(** Character-wise properties survive the text operations. *)
Section Preserved.

Variable p : ascii -> bool.

Lemma all_lstrip s : all p s = true -> all p (lstrip s) = true.
Proof.
  induction s as [|a s IH]; simpl; [reflexivity|].
  intros H. destruct (Chr.is_space a); [|exact H].
  apply andb_true_iff in H as [_ H]. auto.
Qed.

Lemma all_rstrip s : all p s = true -> all p (rstrip s) = true.
Proof.
  induction s as [|a s IH]; simpl; [reflexivity|].
  intros H. apply andb_true_iff in H as [Ha H].
  destruct (is_empty (rstrip s) && Chr.is_space a); [reflexivity|].
  simpl. now rewrite Ha, IH.
Qed.

Lemma all_strip s : all p s = true -> all p (strip s) = true.
Proof. intros H. now apply all_rstrip, all_lstrip. Qed.

Lemma all_split s : all p s = true -> Forall (fun w => all p w = true) (split s).
Proof.
  induction s as [|a s IH]; simpl; [constructor|].
  intros H. apply andb_true_iff in H as [Ha H]. specialize (IH H).
  destruct (Chr.is_space a); [exact IH|].
  assert (H1 : all p (String a "") = true) by (simpl; now rewrite Ha).
  destruct (starts_with_space s); [now constructor|].
  destruct (split s) as [|w ws]; [constructor; [exact H1 | constructor]|].
  inversion IH; subst. constructor; [|assumption].
  simpl. now rewrite Ha.
Qed.

Lemma all_join sep ws :
  all p sep = true -> Forall (fun w => all p w = true) ws ->
  all p (join sep ws) = true.
Proof.
  intros Hsep. induction 1 as [|w ws Hw Hws IH]; [reflexivity|].
  destruct ws as [|w2 ws]; [exact Hw|].
  change (join sep (w :: w2 :: ws)) with (w ++ sep ++ join sep (w2 :: ws)).
  now rewrite !StrFacts.all_app, Hw, Hsep, IH.
Qed.

Lemma all_squish s : p " " = true -> all p s = true -> all p (squish s) = true.
Proof.
  intros Hsp H. apply all_join; [simpl; now rewrite Hsp | now apply all_split].
Qed.

Lemma all_replace_from old new s : forall skip,
  all p new = true -> all p s = true ->
  all p (replace_from old new skip s) = true.
Proof.
  induction s as [|a s IH]; intros skip Hn H; simpl; [reflexivity|].
  simpl in H. apply andb_true_iff in H as [Ha H].
  destruct skip; [|auto].
  destruct (starts_with old (String a s)).
  - rewrite StrFacts.all_app, Hn. simpl. auto.
  - simpl. rewrite Ha. simpl. auto.
Qed.

Lemma all_intersperse new s :
  all p new = true -> all p s = true -> all p (intersperse new s) = true.
Proof.
  intros Hn. induction s as [|a s IH]; simpl; [now rewrite Hn|].
  intros H. apply andb_true_iff in H as [Ha H].
  rewrite StrFacts.all_app, Hn. simpl. now rewrite Ha, IH.
Qed.

Lemma all_replace old new s :
  all p new = true -> all p s = true -> all p (replace old new s) = true.
Proof.
  intros Hn H. unfold replace.
  destruct (is_empty old); [now apply all_intersperse | now apply all_replace_from].
Qed.

Lemma all_sub_from r repl s : forall prev skip,
  all p repl = true -> all p s = true ->
  all p (Re.sub_from r repl prev skip s) = true.
Proof.
  induction s as [|a s IH]; intros prev skip Hr H; simpl.
  - destruct skip; [|reflexivity].
    destruct (Re.match_at r prev ""); [|reflexivity].
    now rewrite StrFacts.all_app, Hr.
  - simpl in H. apply andb_true_iff in H as [Ha H].
    destruct skip; [|auto].
    destruct (Re.match_at r prev (String a s)) as [m|].
    + rewrite StrFacts.all_app, Hr. simpl.
      destruct (String.length (Re.group0 m)); simpl; [rewrite Ha; simpl|]; auto.
    + simpl. rewrite Ha. simpl. auto.
Qed.

Lemma all_sub r repl s :
  all p repl = true -> all p s = true -> all p (Re.sub r repl s) = true.
Proof. apply all_sub_from. Qed.

End Preserved.

(** A text in lower case is its own [lower]. *)
Lemma lower_lower_fixed s : all lower_fixed (lower s) = true.
Proof.
  induction s as [|a s IH]; [reflexivity|].
  change (lower_fixed (Chr.lower a) && all lower_fixed (lower s) = true).
  rewrite IH, andb_true_r.
  revert a. apply Shape.all_ascii_spec. vm_compute. reflexivity.
Qed.

Lemma lower_id s : all lower_fixed s = true -> lower s = s.
Proof.
  induction s as [|a s IH]; [reflexivity|].
  intros H. simpl in H. apply andb_true_iff in H as [Ha H].
  apply Ascii.eqb_eq in Ha.
  change (String (Chr.lower a) (lower s) = String a s).
  now rewrite Ha, IH.
Qed.

End Words.

(** ** The passes *)

Module Passes.

Import Re Lang ReFacts Shape Numeral.

Lemma numeric_groups pat :
  In pat numeric_patterns ->
  groups_ok (fun _ t => numeral t) pat /\ binds 1 pat = true.
Proof.
  unfold numeral. simpl In.
  intros [<-|[<-|[<-|[<-|[<-|[<-|[<-|[<-|[<-|[]]]]]]]]]];
    (split; [simpl; repeat split; eauto | reflexivity]).
Qed.

Lemma numeric_match_1 pat m :
  In pat numeric_patterns -> capt pat (group0 m) (groups m) -> has_numeral 1 m.
Proof.
  intros Hin Hc. destruct (numeric_groups pat Hin) as [Hg Hb].
  exact (group_spec _ 1 pat m Hc Hb Hg).
Qed.

Lemma interval_match_2 pat m :
  In pat [pat_between; pat_dash] ->
  capt pat (group0 m) (groups m) -> has_numeral 2 m.
Proof.
  intros Hin Hc.
  assert (Hn : In pat numeric_patterns) by (simpl in *; tauto).
  destruct (numeric_groups pat Hn) as [Hg _].
  assert (Hb : binds 2 pat = true)
    by (destruct Hin as [<-|[<-|[]]]; reflexivity).
  exact (group_spec _ 2 pat m Hc Hb Hg).
Qed.

(** The loops: an invariant of the body that holds at the start holds at
    the end, and the loop ends without an exception. *)
Section Loops.

Variable body : state -> rmatch -> option state.
Variable I : state -> Prop.
Variable G : rmatch -> Prop.
Hypothesis body_ok :
  forall st m, I st -> G m -> exists st', body st m = Some st' /\ I st'.

Lemma each_match_ok ms :
  Forall G ms ->
  forall st, I st -> exists st', each_match body ms st = Some st' /\ I st'.
Proof.
  induction 1 as [|m ms Hm Hms IH]; intros st Hst; simpl; [eauto|].
  destruct (body_ok st m Hst Hm) as (st1 & -> & H1). simpl. auto.
Qed.

Lemma scan_all_ok pats :
  (forall pat m, In pat pats -> capt pat (group0 m) (groups m) -> G m) ->
  forall st, I st -> exists st', scan_all body pats st = Some st' /\ I st'.
Proof.
  induction pats as [|pat pats IH]; intros HG st Hst; simpl; [eauto|].
  unfold scan at 1.
  destruct (each_match_ok (finditer pat (text st))) with (st := st)
    as (st1 & -> & H1); [|exact Hst|].
  - eapply Forall_impl; [|apply finditer_sound].
    intros m Hm. apply (HG pat m); [now left | exact Hm].
  - simpl. apply IH; [|exact H1].
    intros p m Hp. apply HG. now right.
Qed.

End Loops.

Lemma lower_text_erase m st mn mx :
  lower_text st ->
  lower_text {| text := erase m (text st); min_price := mn; max_price := mx |}.
Proof.
  unfold lower_text, erase. simpl. intros H.
  now apply Words.all_replace.
Qed.

Lemma interval_step_ok st m :
  lower_text st -> has_numeral 1 m /\ has_numeral 2 m ->
  exists st', interval_step st m = Some st' /\ lower_text st'.
Proof.
  intros Hst [(t1 & E1 & N1) (t2 & E2 & N2)].
  destruct (numeral_float t1 N1) as (a & Ea & _).
  destruct (numeral_float t2 N2) as (b & Eb & _).
  unfold interval_step. rewrite E1. simpl. rewrite Ea. simpl.
  rewrite E2. simpl. rewrite Eb. simpl.
  destruct (Flt.sorted2 a b) as [lo hi].
  eexists. split; [reflexivity|]. now apply lower_text_erase.
Qed.

Lemma upper_step_ok st m :
  lower_text st -> has_numeral 1 m ->
  exists st', upper_step st m = Some st' /\ lower_text st'.
Proof.
  intros Hst (t1 & E1 & N1).
  destruct (numeral_float t1 N1) as (a & Ea & _).
  unfold upper_step. rewrite E1. simpl. rewrite Ea. simpl.
  eexists. split; [reflexivity|]. now apply lower_text_erase.
Qed.

Lemma lower_step_ok st m :
  lower_text st -> has_numeral 1 m ->
  exists st', lower_step st m = Some st' /\ lower_text st'.
Proof.
  intros Hst (t1 & E1 & N1).
  destruct (numeral_float t1 N1) as (a & Ea & _).
  unfold lower_step. rewrite E1. simpl. rewrite Ea. simpl.
  eexists. split; [reflexivity|]. now apply lower_text_erase.
Qed.

Lemma approx_step_ok st m :
  lower_text st -> has_numeral 1 m ->
  exists st', approx_step st m = Some st' /\ lower_text st'.
Proof.
  intros Hst (t1 & E1 & N1).
  destruct (numeral_float t1 N1) as (a & Ea & _).
  unfold approx_step. rewrite E1. simpl. rewrite Ea. simpl.
  destruct (_ || _); eexists; (split; [reflexivity|]);
    now apply lower_text_erase.
Qed.

Lemma lower_text_initial q : lower_text (initial q).
Proof.
  unfold lower_text, initial. simpl.
  rewrite StrFacts.all_app. simpl. rewrite andb_true_r.
  apply Words.all_strip, Words.lower_lower_fixed.
Qed.

Lemma lower_text_soft_cheap st : lower_text st -> lower_text (soft_cheap st).
Proof.
  unfold soft_cheap, lower_text. intros H.
  destruct (Re.search pat_cheap (text st)); [|exact H].
  simpl. now apply Words.all_sub.
Qed.

Lemma lower_text_soft_expensive st :
  lower_text st -> lower_text (soft_expensive st).
Proof.
  unfold soft_expensive, lower_text. intros H.
  destruct (Re.search pat_expensive (text st)); [|exact H].
  simpl. now apply Words.all_sub.
Qed.

(** The passes never raise, and leave a lower-case working text. *)
Theorem passes_ok q : exists st, passes q = Some st /\ lower_text st.
Proof.
  unfold passes.
  destruct (scan_all_ok interval_step lower_text
              (fun m => has_numeral 1 m /\ has_numeral 2 m)
              interval_step_ok [pat_between; pat_dash])
    with (st := initial q) as (st1 & -> & H1);
    [|apply lower_text_initial|].
  { intros pat m Hin Hc. split.
    - apply (numeric_match_1 pat); [simpl in *; tauto | exact Hc].
    - now apply (interval_match_2 pat). }
  cbn [bind].
  destruct (scan_all_ok upper_step lower_text (has_numeral 1)
              upper_step_ok [pat_under; pat_le; pat_upto])
    with (st := st1) as (st2 & -> & H2); [|exact H1|].
  { intros pat m Hin Hc.
    apply (numeric_match_1 pat); [simpl in *; tauto | exact Hc]. }
  cbn [bind].
  destruct (scan_all_ok lower_step lower_text (has_numeral 1)
              lower_step_ok [pat_over; pat_ge])
    with (st := st2) as (st3 & -> & H3); [|exact H2|].
  { intros pat m Hin Hc.
    apply (numeric_match_1 pat); [simpl in *; tauto | exact Hc]. }
  cbn [bind].
  destruct (scan_all_ok approx_step lower_text (has_numeral 1)
              approx_step_ok [pat_around; pat_exactly])
    with (st := st3) as (st4 & -> & H4); [|exact H3|].
  { intros pat m Hin Hc.
    apply (numeric_match_1 pat); [simpl in *; tauto | exact Hc]. }
  cbn [bind]. eexists. split; [reflexivity|].
  now apply lower_text_soft_expensive, lower_text_soft_cheap.
Qed.

(** Without a match a loop leaves the state alone. *)
Lemma scan_no_match body pat st :
  no_match pat (text st) = true -> scan body pat st = Some st.
Proof.
  unfold no_match, scan. now destruct (finditer pat (text st)).
Qed.

Lemma phrase_free_passes q :
  phrase_free q = true -> passes q = Some (initial q).
Proof.
  unfold phrase_free. cbv zeta. intros H.
  apply andb_true_iff in H as [H He]. apply andb_true_iff in H as [H Hc].
  apply negb_true_iff in He, Hc.
  simpl forallb in H.
  repeat (apply andb_true_iff in H; destruct H as [?H H]).
  unfold passes, scan_all.
  repeat (rewrite scan_no_match by assumption; cbn [bind]).
  unfold soft_cheap. rewrite Hc. unfold soft_expensive. now rewrite He.
Qed.

(** A query without a price phrase: the range is open on both sides and
    the text comes back in lower case, its words one space apart. *)
Theorem phrase_free_extract q :
  phrase_free q = true ->
  _extract_price_filters q =
  Some (if Str.is_empty (Str.squish (Str.lower q)) then q
        else Str.squish (Str.lower q), None, None).
Proof.
  intros H. unfold _extract_price_filters.
  rewrite (phrase_free_passes q H). simpl.
  unfold finish, initial. cbn [text min_price max_price].
  now rewrite Words.squish_padded.
Qed.

(** The extractor returns for every query. *)
Theorem extract_total q :
  (exists r, _extract_price_filters q = Some r)
  /\ exists st, passes q = Some st
                /\ _extract_price_filters q = Some (finish q st).
Proof.
  destruct (passes_ok q) as (st & Hp & _).
  unfold _extract_price_filters. rewrite Hp. cbn [bind]. eauto.
Qed.

(** No pattern of the extractor matches the empty text, so that every
    match of [finditer] and [sub] moves on in the text. *)
Theorem matches_not_empty pat s m :
  In pat (pat_cheap :: pat_expensive :: numeric_patterns) ->
  In m (finditer pat s) -> group0 m <> "".
Proof.
  intros Hpat Hm.
  pose proof (finditer_sound pat s) as HF. rewrite Forall_forall in HF.
  specialize (HF m Hm).
  assert (Hn : needs (fun _ => true) pat = true).
  { simpl in Hpat.
    destruct Hpat as [<-|[<-|[<-|[<-|[<-|[<-|[<-|[<-|[<-|[<-|[<-|[]]]]]]]]]]]];
      vm_compute; reflexivity. }
  pose proof (capt_needs _ _ _ _ HF Hn) as Ha.
  intros E. rewrite E in Ha. discriminate.
Qed.

(** Each update of a bound tightens it: the lower bound never goes down,
    the upper bound never goes up. *)
Lemma raise_min_tightens cur v r :
  Flt.is_nan cur = false -> Flt.is_nan v = false ->
  raise_min (Some cur) v = Some r ->
  Flt.leb cur r = true /\ Flt.leb v r = true.
Proof. intros Hc Hv [= <-]. now apply FltFacts.max_ge. Qed.

Lemma lower_max_tightens cur v r :
  Flt.is_nan cur = false -> Flt.is_nan v = false ->
  lower_max (Some cur) v = Some r ->
  Flt.leb r cur = true /\ Flt.leb r v = true.
Proof. intros Hc Hv [= <-]. now apply FltFacts.min_le. Qed.

End Passes.

(** ** Queries without a digit *)

Module Digitless.

Import Re Lang ReFacts Shape.

Lemma any_take p k : forall s,
  Str.any p (Str.take k s) = true -> Str.any p s = true.
Proof.
  induction k as [|k IH]; intros [|c s]; simpl; try discriminate.
  intros H. apply orb_true_iff in H as [H|H].
  - now rewrite H.
  - rewrite (IH _ H). apply orb_true_r.
Qed.

Lemma match_at_needs p r prev s m :
  needs p r = true -> match_at r prev s = Some m -> Str.any p s = true.
Proof.
  intros Hn Hm.
  pose proof (match_at_sound _ _ _ _ Hm) as Hc.
  pose proof (capt_needs p _ _ _ Hc Hn) as Ha.
  unfold match_at in Hm.
  destruct (run r prev s [] _) as [[s' g]|]; [|discriminate].
  injection Hm as <-. simpl in Ha. exact (any_take _ _ _ Ha).
Qed.

(** A pattern whose words all hold a character of [p] finds nothing in a
    text without one. *)
Lemma finditer_from_without p r s : forall prev skip,
  needs p r = true -> Str.any p s = false -> finditer_from r prev skip s = [].
Proof.
  induction s as [|c s IH]; intros prev skip Hn Hs.
  - simpl. destruct skip; [|reflexivity].
    destruct (match_at r prev "") as [m|] eqn:E; [|reflexivity].
    apply (match_at_needs p) in E; [discriminate | exact Hn].
  - assert (Hs' : Str.any p s = false).
    { simpl in Hs. now apply orb_false_iff in Hs as [_ Hs]. }
    simpl. destruct skip; [|now apply IH].
    destruct (match_at r prev (String c s)) as [m|] eqn:E; [|now apply IH].
    apply (match_at_needs p) in E; [congruence | exact Hn].
Qed.

Lemma any_lstrip p s : Str.any p (Str.lstrip s) = true -> Str.any p s = true.
Proof.
  induction s as [|c s IH]; simpl; [discriminate|].
  destruct (Chr.is_space c); [|auto].
  intros H. rewrite (IH H). apply orb_true_r.
Qed.

Lemma any_rstrip p s : Str.any p (Str.rstrip s) = true -> Str.any p s = true.
Proof.
  induction s as [|c s IH]; simpl; [discriminate|].
  destruct (Str.is_empty (Str.rstrip s) && Chr.is_space c); [discriminate|].
  simpl. intros H. apply orb_true_iff in H as [H|H].
  - now rewrite H.
  - rewrite (IH H). apply orb_true_r.
Qed.

Lemma any_digit_lower s :
  Str.any Chr.is_digit (Str.lower s) = Str.any Chr.is_digit s.
Proof.
  induction s as [|c s IH]; [reflexivity|].
  change (Chr.is_digit (Chr.lower c) || Str.any Chr.is_digit (Str.lower s)
          = Chr.is_digit c || Str.any Chr.is_digit s).
  rewrite IH. f_equal.
  assert (H : forall a, Bool.eqb (Chr.is_digit (Chr.lower a)) (Chr.is_digit a) = true)
    by (apply all_ascii_spec; vm_compute; reflexivity).
  apply Bool.eqb_prop, H.
Qed.

Lemma initial_digitless q :
  Str.any Chr.is_digit q = false ->
  Str.any Chr.is_digit (text (initial q)) = false.
Proof.
  intros H. unfold initial. cbn [text].
  destruct (Str.any Chr.is_digit (" " ++ Str.strip (Str.lower q) ++ " "))
    eqn:E; [|reflexivity].
  simpl in E. rewrite StrFacts.any_app in E. simpl in E.
  rewrite orb_false_r in E.
  apply any_rstrip, any_lstrip in E. rewrite any_digit_lower in E. congruence.
Qed.

(** Every numeric pattern needs a digit, so a query without a digit holds
    no numeric price phrase. *)
Theorem digitless_no_numeric_phrase q :
  Str.any Chr.is_digit q = false ->
  forallb (fun pat => no_match pat (text (initial q))) numeric_patterns = true.
Proof.
  intros H. apply initial_digitless in H.
  apply forallb_forall. intros pat Hin. unfold no_match, finditer.
  rewrite (finditer_from_without Chr.is_digit); [reflexivity| |exact H].
  simpl in Hin.
  destruct Hin as [<-|[<-|[<-|[<-|[<-|[<-|[<-|[<-|[<-|[]]]]]]]]]];
    vm_compute; reflexivity.
Qed.

Theorem digitless_phrase_free q :
  Str.any Chr.is_digit q = false ->
  Re.search pat_cheap (text (initial q)) = false ->
  Re.search pat_expensive (text (initial q)) = false ->
  phrase_free q = true.
Proof.
  intros Hd Hc He. unfold phrase_free. cbv zeta.
  now rewrite (digitless_no_numeric_phrase q Hd), Hc, He.
Qed.

End Digitless.

(** ** The runtime model on known values *)

Module Examples.

Import Re.

Example lower_ex : Str.lower "Hello  WORLD" = "hello  world".
Proof. reflexivity. Qed.

Example strip_ex : Str.strip "  ab  c d  " = "ab  c d".
Proof. reflexivity. Qed.

Example split_ex : Str.split "  ab  c d " = ["ab"; "c"; "d"].
Proof. reflexivity. Qed.

Example replace_ex : Str.replace "ab" "-" "xababcab" = "x--c-".
Proof. reflexivity. Qed.

Example replace_overlap_ex : Str.replace "aa" "-" "aaa" = "-a".
Proof. reflexivity. Qed.

(** [float("0.1")] is [0x1.999999999999ap-4]. *)
Example float_tenth_ex :
  _to_float "0.1" = Some (S754_finite false 7205759403792794 (-56)).
Proof. vm_compute. reflexivity. Qed.

Example float_grouped_ex : _to_float "1,000.50" = _to_float "1000.5".
Proof. vm_compute. reflexivity. Qed.

(** [0.9 * 20.0 == 18.0] and [1.1 * 20.0 == 22.0]. *)
Example band_ex :
  Flt.mul f0_9 (Flt.of_N 20) = Flt.of_N 18
  /\ Flt.mul f1_1 (Flt.of_N 20) = Flt.of_N 22.
Proof. split; vm_compute; reflexivity. Qed.

(** On a run of four digits [_NUM] stops after three. *)
Example num_1000_ex :
  option_map group0 (match_at _NUM None "1000") = Some "100".
Proof. vm_compute. reflexivity. Qed.

Example num_grouped_ex :
  option_map group0 (match_at _NUM None "12,345.67 usd") = Some "12,345.67".
Proof. vm_compute. reflexivity. Qed.

Example finditer_ex :
  finditer pat_dash (text (initial "5-10")) = [m_5_10].
Proof. vm_compute. reflexivity. Qed.

Example sub_ex :
  Re.sub pat_cheap " " " cheap, cheaper and budget " = "  , cheaper and   ".
Proof. vm_compute. reflexivity. Qed.

Example spray_ex :
  _extract_price_filters "cleaning spray under 10 dollars"
  = Some ("cleaning spray", None, Some (Flt.of_N 10)).
Proof. vm_compute. reflexivity. Qed.

Example cloths_ex :
  _extract_price_filters "microfiber cloths 5-10"
  = Some ("microfiber cloths", Some (Flt.of_N 5), Some (Flt.of_N 10)).
Proof. vm_compute. reflexivity. Qed.

End Examples.

(** ** The soft words *)

Module Soft.

Import Re.

Lemma after_app w s rest : after w s = Some rest -> s = w ++ rest.
Proof.
  revert s. induction w as [|a w IH]; intros s H; simpl in H.
  - now injection H as <-.
  - destruct s as [|b s]; [discriminate|].
    destruct (Ascii.eqb a b) eqn:E; [|discriminate].
    apply Ascii.eqb_eq in E. subst b. simpl. f_equal. now apply IH.
Qed.

Lemma after_refl w rest : after w (w ++ rest) = Some rest.
Proof.
  induction w as [|a w IH]; simpl; [reflexivity|].
  now rewrite Ascii.eqb_refl.
Qed.

Lemma run_str w : forall prev s g k,
  run (str w) prev s g k
  = match after w s with
    | Some rest => k (last_of prev w) rest g
    | None => None
    end.
Proof.
  induction w as [|a w IH]; intros prev s g k; [reflexivity|].
  destruct w as [|b w].
  - simpl. destruct s as [|c s]; [reflexivity|].
    rewrite Ascii.eqb_sym. destruct (Ascii.eqb a c) eqn:E; [|reflexivity].
    apply Ascii.eqb_eq in E. now subst c.
  - change (str (String a (String b w))) with (Seq (Lit a) (str (String b w))).
    cbn [run]. destruct s as [|c s]; [reflexivity|].
    rewrite Ascii.eqb_sym. cbn [after].
    destruct (Ascii.eqb a c) eqn:E; [|reflexivity].
    apply Ascii.eqb_eq in E. subst c. rewrite IH. reflexivity.
Qed.

Lemma run_choice_cons w ws prev s g k :
  run (words_choice (w :: ws)) prev s g k
  = match run (str w) prev s g k with
    | Some x => Some x
    | None => run (words_choice ws) prev s g k
    end.
Proof.
  destruct ws as [|w' ws]; [|reflexivity].
  cbn [words_choice]. destruct (run (str w) prev s g k); [reflexivity|].
  simpl. now destruct s.
Qed.

(** What a plain word looks like. *)
Lemma plain_first w :
  plain_word w = true -> exists a w', w = String a w' /\ Chr.is_word a = true.
Proof.
  unfold plain_word. intros H.
  apply andb_true_iff in H as [H _]. apply andb_true_iff in H as [H _].
  destruct w as [|a w']; [discriminate|]. eauto.
Qed.

Lemma last_of_cons prev a w : last_of prev (String a w) = last_of None (String a w).
Proof. reflexivity. Qed.

Lemma plain_last w prev :
  plain_word w = true -> word_before (last_of prev w) = true.
Proof.
  intros H. destruct (plain_first w H) as (a & w' & -> & _).
  rewrite last_of_cons. unfold plain_word in H.
  apply andb_true_iff in H as [H _]. now apply andb_true_iff in H as [_ H].
Qed.

Lemma plain_no_space w : plain_word w = true -> Str.all no_space w = true.
Proof. unfold plain_word. intros H. now apply andb_true_iff in H as [_ H]. Qed.

Lemma plain_after w s rest :
  plain_word w = true -> after w s = Some rest -> word_after s = true.
Proof.
  intros H Ha. destruct (plain_first w H) as (a & w' & -> & Hw).
  apply after_app in Ha. subst s. exact Hw.
Qed.

(** The rest of the pattern after the choice: the group is closed and a
    word boundary must follow. *)
Lemma choice_then_boundary ws prev s :
  forallb plain_word ws = true ->
  run (words_choice ws) prev s []
      (fun p' s' g' =>
         run WordB p' s'
             ((1, Str.take (String.length s - String.length s') s) :: g')
             (fun _ s'' g'' => Some (s'', g'')))
  = match List.find (fun w => stands w None s) ws with
    | Some w =>
        match after w s with
        | Some rest => Some (rest, [(1, w)])
        | None => None
        end
    | None => None
    end.
Proof.
  induction ws as [|w ws IH]; intros Hws.
  - simpl. now destruct s.
  - cbn [forallb] in Hws. apply andb_true_iff in Hws as [Hw Hws].
    rewrite run_choice_cons, run_str. cbn [List.find]. unfold stands at 1.
    destruct (after w s) as [rest|] eqn:Ea; [|now apply IH].
    cbn [run word_before negb andb]. rewrite (plain_last w prev Hw).
    pose proof (after_app _ _ _ Ea) as Hs.
    destruct (word_after rest); cbn [xorb negb].
    + exact (IH Hws).
    + subst s. now rewrite StrFacts.take_consumed, after_refl.
Qed.

Lemma stands_none w prev s :
  stands w prev s = negb (word_before prev) && stands w None s.
Proof.
  unfold stands. destruct (after w s); simpl;
    [reflexivity | now rewrite andb_false_r].
Qed.

Lemma find_ext {A : Type} (f g : A -> bool) l :
  (forall x, In x l -> f x = g x) -> List.find f l = List.find g l.
Proof.
  induction l as [|a l IH]; intros H; [reflexivity|]. simpl.
  rewrite (H a (or_introl eq_refl)). destruct (g a); [reflexivity|].
  apply IH. intros x Hx. apply H. now right.
Qed.

Lemma find_none_all {A : Type} (f : A -> bool) l :
  (forall x, In x l -> f x = false) -> List.find f l = None.
Proof.
  induction l as [|a l IH]; intros H; [reflexivity|]. simpl.
  rewrite (H a (or_introl eq_refl)). apply IH. intros x Hx. apply H. now right.
Qed.

Lemma plain_in ws w :
  forallb plain_word ws = true -> In w ws -> plain_word w = true.
Proof. intros H. now apply (proj1 (forallb_forall _ _) H). Qed.

(** The match of [\b(w1|w2|...)\b] at a position is the first of the
    words that stands there. *)
Theorem match_at_bounded ws prev s :
  forallb plain_word ws = true ->
  option_map group0 (match_at (bounded_words ws) prev s) = word_at ws prev s.
Proof.
  intros Hws. unfold match_at, bounded_words, word_at.
  cbn [run]. destruct (word_before prev) eqn:Eb.
  - rewrite (find_none_all (fun w => stands w prev s)).
    2:{ intros w _. rewrite stands_none. cbn [word_before]. now rewrite Eb. }
    destruct (word_after s) eqn:Ea; cbn [xorb]; [reflexivity|].
    change (fun (p' : option ascii) (s' : string) (g' : caps) =>
              if xorb (word_before p') (word_after s')
              then Some (s', (1, Str.take (String.length s - String.length s') s) :: g')
              else None)
      with (fun (p' : option ascii) (s' : string) (g' : caps) =>
              run WordB p' s'
                  ((1, Str.take (String.length s - String.length s') s) :: g')
                  (fun _ s'' g'' => Some (s'', g''))).
    rewrite choice_then_boundary by exact Hws.
    rewrite (find_none_all (fun w => stands w None s)); [reflexivity|].
    intros w Hin. unfold stands.
    destruct (after w s) as [rest|] eqn:E; [|reflexivity].
    rewrite (plain_after w s rest (plain_in _ _ Hws Hin) E) in Ea. discriminate.
  - rewrite (find_ext (fun w => stands w prev s) (fun w => stands w None s)).
    2:{ intros w _. rewrite stands_none. now rewrite Eb. }
    destruct (List.find (fun w => stands w None s) ws) as [w|] eqn:Ef.
    + destruct (List.find_some _ _ Ef) as [Hin Hst].
      unfold stands in Hst. destruct (after w s) as [rest|] eqn:E; [|discriminate].
      rewrite (plain_after w s rest (plain_in _ _ Hws Hin) E). cbn [xorb].
      change (fun (p' : option ascii) (s' : string) (g' : caps) =>
                if xorb (word_before p') (word_after s')
                then Some (s', (1, Str.take (String.length s - String.length s') s) :: g')
                else None)
        with (fun (p' : option ascii) (s' : string) (g' : caps) =>
                run WordB p' s'
                    ((1, Str.take (String.length s - String.length s') s) :: g')
                    (fun _ s'' g'' => Some (s'', g''))).
      rewrite choice_then_boundary by exact Hws. rewrite Ef, E.
      cbn [option_map group0]. apply after_app in E. subst s.
      now rewrite StrFacts.take_consumed.
    + destruct (xorb false (word_after s)); [|reflexivity].
      change (fun (p' : option ascii) (s' : string) (g' : caps) =>
                if xorb (word_before p') (word_after s')
                then Some (s', (1, Str.take (String.length s - String.length s') s) :: g')
                else None)
        with (fun (p' : option ascii) (s' : string) (g' : caps) =>
                run WordB p' s'
                    ((1, Str.take (String.length s - String.length s') s) :: g')
                    (fun _ s'' g'' => Some (s'', g''))).
      rewrite choice_then_boundary by exact Hws. now rewrite Ef.
Qed.

Lemma match_is_word ws prev s :
  forallb plain_word ws = true ->
  is_some (match_at (bounded_words ws) prev s) = word_here ws prev s.
Proof.
  intros H. unfold word_here. rewrite <- (match_at_bounded ws prev s H).
  now destruct (match_at _ _ _).
Qed.

(** [re.search] with such a pattern finds a position where one of the
    words stands. *)
Theorem search_bounded ws s : forall prev,
  forallb plain_word ws = true ->
  search_from (bounded_words ws) prev s = occurs (word_here ws) prev s.
Proof.
  induction s as [|c s IH]; intros prev H; simpl;
    rewrite <- (match_is_word ws prev _ H);
    destruct (match_at _ _ _); simpl; auto.
Qed.

Lemma word_here_stands ws prev s :
  word_here ws prev s = true ->
  exists w, word_at ws prev s = Some w /\ In w ws /\ stands w prev s = true.
Proof.
  unfold word_here, word_at. destruct (List.find _ ws) as [w|] eqn:E;
    [|discriminate].
  intros _. destruct (List.find_some _ _ E). eauto.
Qed.

Lemma stands_word_here ws w prev s :
  In w ws -> stands w prev s = true -> word_here ws prev s = true.
Proof.
  intros Hin Hst. unfold word_here, word_at.
  destruct (List.find _ ws) eqn:E; [reflexivity|].
  rewrite (List.find_none _ _ E w Hin) in Hst. discriminate.
Qed.

Lemma stands_split w prev s :
  stands w prev s = true ->
  exists rest, after w s = Some rest /\ word_before prev = false
               /\ word_after rest = false.
Proof.
  unfold stands. destruct (after w s) as [rest|]; [|discriminate].
  intros H. apply andb_true_iff in H as [H1 H2].
  apply negb_true_iff in H1, H2. eauto.
Qed.

(** The characters of a match are passed over. *)
Lemma sub_skip r repl u : forall prev rest,
  sub_from r repl prev (String.length u) (u ++ rest)
  = sub_from r repl (last_of prev u) 0 rest.
Proof.
  induction u as [|a u IH]; intros prev rest; [reflexivity|].
  cbn [String.length append sub_from last_of]. apply IH.
Qed.

(** One step of [re.sub] with such a pattern: a word that stands at the
    position is replaced by the space and passed over; otherwise the
    character is kept. *)
Lemma sub_step ws prev s :
  forallb plain_word ws = true ->
  sub_from (bounded_words ws) " " prev 0 s
  = match word_at ws prev s with
    | Some w =>
        match after w s with
        | Some rest =>
            String " " (sub_from (bounded_words ws) " " (last_of prev w) 0 rest)
        | None => ""
        end
    | None =>
        match s with
        | EmptyString => EmptyString
        | String c s' =>
            String c (sub_from (bounded_words ws) " " (Some c) 0 s')
        end
    end.
Proof.
  intros H. pose proof (match_at_bounded ws prev s H) as Hm.
  destruct (word_at ws prev s) as [w|] eqn:Ew.
  - destruct (word_here_stands ws prev s) as (w0 & E0 & Hin & Hst).
    { unfold word_here. now rewrite Ew. }
    rewrite Ew in E0. injection E0 as <-.
    destruct (stands_split _ _ _ Hst) as (rest & Ea & _ & _).
    rewrite Ea. destruct (plain_first w (plain_in _ _ H Hin)) as (a & w' & -> & _).
    pose proof (after_app _ _ _ Ea) as Hs. subst s.
    destruct (match_at (bounded_words ws) prev (String a w' ++ rest))
      as [m|] eqn:Em; [|discriminate].
    cbn [option_map] in Hm. injection Hm as Hm.
    cbn [append] in Em. cbn [append sub_from]. rewrite Em, Hm.
    cbn [String.length append].
    f_equal. exact (sub_skip _ _ w' (Some a) rest).
  - destruct (match_at (bounded_words ws) prev s) as [m|] eqn:Em;
      [discriminate|].
    destruct s as [|c s']; cbn [sub_from]; now rewrite Em.
Qed.

Lemma occurs_here Q prev s : Q prev s = true -> occurs Q prev s = true.
Proof. intros H. destruct s; simpl; now rewrite H. Qed.

Lemma occurs_later Q prev c s :
  occurs Q (Some c) s = true -> occurs Q prev (String c s) = true.
Proof. intros H. simpl. rewrite H. apply orb_true_r. Qed.

Lemma occurs_app Q u : forall prev rest,
  occurs Q (last_of prev u) rest = true -> occurs Q prev (u ++ rest) = true.
Proof.
  induction u as [|a u IH]; intros prev rest H; [exact H|].
  cbn [append]. apply occurs_later. now apply IH.
Qed.

Lemma occurs_impl (Q Q' : option ascii -> string -> bool) s : forall prev,
  (forall p t, Q p t = true -> Q' p t = true) ->
  occurs Q prev s = true -> occurs Q' prev s = true.
Proof.
  induction s as [|c s IH]; intros prev HQ H; simpl in *.
  - rewrite orb_false_r in *. auto.
  - apply orb_true_iff in H as [H|H].
    + now rewrite (HQ _ _ H).
    + rewrite (IH _ HQ H). apply orb_true_r.
Qed.

Lemma occurs_never Q s : forall prev,
  (forall p t, Q p t = false) -> occurs Q prev s = false.
Proof.
  induction s as [|c s IH]; intros prev HQ; simpl; rewrite HQ;
    [reflexivity|]. now apply IH.
Qed.

Lemma word_here_empty ws prev :
  forallb plain_word ws = true -> word_here ws prev "" = false.
Proof.
  intros H. destruct (word_here ws prev "") eqn:E; [|reflexivity].
  destruct (word_here_stands _ _ _ E) as (w & _ & Hin & Hst).
  destruct (stands_split _ _ _ Hst) as (rest & Ea & _ & _).
  destruct (plain_first w (plain_in _ _ H Hin)) as (a & w' & -> & _).
  discriminate.
Qed.

(** A word begins with a word character, so none stands where the text
    goes on with another character. *)
Lemma word_here_first ws prev c s :
  forallb plain_word ws = true -> Chr.is_word c = false ->
  word_here ws prev (String c s) = false.
Proof.
  intros H Hc. destruct (word_here ws prev (String c s)) eqn:E; [|reflexivity].
  destruct (word_here_stands _ _ _ E) as (w & _ & Hin & Hst).
  destruct (stands_split _ _ _ Hst) as (rest & Ea & _ & _).
  pose proof (plain_after w _ rest (plain_in _ _ H Hin) Ea) as Hx.
  simpl in Hx. congruence.
Qed.

Lemma word_here_after_word ws prev s :
  word_before prev = true -> word_here ws prev s = false.
Proof.
  intros Hb. unfold word_here, word_at. rewrite find_none_all; [reflexivity|].
  intros w _. rewrite stands_none, Hb. reflexivity.
Qed.

Section Erasure.

Variable ws : list string.
Hypothesis ws_plain : forallb plain_word ws = true.

(** A text free of whitespace at the head of the result is at the head of
    the text, and the result goes on as the result of the rest. *)
Lemma sub_prefix u :
  Str.all no_space u = true ->
  forall prev s r',
    after u (sub_from (bounded_words ws) " " prev 0 s) = Some r' ->
    exists r,
      after u s = Some r
      /\ r' = sub_from (bounded_words ws) " " (last_of prev u) 0 r.
Proof.
  induction u as [|a u IH]; intros Hu prev s r' H.
  - simpl in H. injection H as <-. exists s. split; reflexivity.
  - cbn [Str.all] in Hu. apply andb_true_iff in Hu as [Ha Hu].
    rewrite (sub_step ws prev s ws_plain) in H.
    destruct (word_at ws prev s) as [w|].
    + destruct (after w s) as [rest|]; [|discriminate].
      cbn [after] in H. destruct (Ascii.eqb a " ") eqn:E; [|discriminate].
      apply Ascii.eqb_eq in E. subst a. discriminate.
    + destruct s as [|c s']; [discriminate|]. cbn [after] in H |- *.
      destruct (Ascii.eqb a c) eqn:E; [|discriminate].
      apply Ascii.eqb_eq in E. subst c.
      exact (IH Hu (Some a) s' r' H).
Qed.

Lemma sub_head prev r :
  word_before prev = true ->
  word_after (sub_from (bounded_words ws) " " prev 0 r) = word_after r.
Proof.
  intros Hb. rewrite (sub_step ws prev r ws_plain).
  pose proof (word_here_after_word ws prev r Hb) as Hn.
  unfold word_here in Hn. destruct (word_at ws prev r); [discriminate|].
  now destruct r.
Qed.

(** A word that stands in the result of [re.sub] stands in the text, at a
    position where the pattern does not match. *)
Lemma sub_keeps W :
  forallb plain_word W = true ->
  forall n s, String.length s < n ->
  forall prev prev',
    (word_before prev' = false -> word_before prev = false)
    \/ word_after s = false ->
    occurs (word_here W) prev' (sub_from (bounded_words ws) " " prev 0 s) = true ->
    occurs (fun p t => word_here W p t && negb (word_here ws p t)) prev s = true.
Proof.
  intros HW. induction n as [|n IH]; intros s Hlen prev prev' Hc H; [lia|].
  pose proof (sub_step ws prev s ws_plain) as Hstep.
  destruct (word_at ws prev s) as [w|] eqn:Ew.
  - destruct (word_here_stands ws prev s) as (w0 & E0 & Hin & Hst).
    { unfold word_here. now rewrite Ew. }
    rewrite Ew in E0. injection E0 as <-.
    destruct (stands_split _ _ _ Hst) as (rest & Ea & Hb & Hr).
    rewrite Ea in Hstep. rewrite Hstep in H. cbn [occurs] in H.
    rewrite (word_here_first W prev' " " _ HW eq_refl) in H. cbn [orb] in H.
    pose proof (after_app _ _ _ Ea) as Hs. subst s.
    assert (Hl : String.length rest < n).
    { destruct (plain_first w (plain_in _ _ ws_plain Hin)) as (a & w' & -> & _).
      rewrite StrFacts.length_app in Hlen. simpl in Hlen. lia. }
    apply occurs_app.
    exact (IH rest Hl (last_of prev w) (Some " "%char) (or_intror Hr) H).
  - destruct s as [|c s'].
    + rewrite Hstep in H. simpl in H.
      rewrite (word_here_empty W prev' HW) in H. discriminate.
    + rewrite Hstep in H. cbn [occurs] in H.
      apply orb_true_iff in H as [H|H].
      * apply occurs_here.
        destruct (word_here_stands _ _ _ H) as (w0 & _ & Hin & Hst).
        destruct (stands_split _ _ _ Hst) as (r' & Ea & Hb' & Hr').
        rewrite <- Hstep in Ea.
        pose proof (plain_in _ _ HW Hin) as Hp.
        destruct (sub_prefix w0 (plain_no_space _ Hp) _ _ _ Ea)
          as (r & Ear & ->).
        rewrite (sub_head _ r (plain_last w0 prev Hp)) in Hr'.
        assert (Hb : word_before prev = false).
        { destruct Hc as [Hc|Hc]; [exact (Hc Hb')|].
          rewrite (plain_after w0 _ r Hp Ear) in Hc. discriminate. }
        apply andb_true_iff. split.
        -- apply (stands_word_here W w0); [exact Hin|].
           unfold stands. now rewrite Ear, Hb, Hr'.
        -- unfold word_here. now rewrite Ew.
      * apply occurs_later. simpl in Hlen.
        exact (IH s' ltac:(lia) (Some c) (Some c) (or_introl (fun E => E)) H).
Qed.

(** After [re.sub] no word of the pattern stands in the text any more. *)
Theorem sub_erases s :
  search (bounded_words ws) (sub (bounded_words ws) " " s) = false.
Proof.
  unfold search, sub. rewrite search_bounded by exact ws_plain.
  destruct (occurs (word_here ws) None _) eqn:E; [|reflexivity].
  apply (sub_keeps ws ws_plain (S (String.length s)) s (Nat.lt_succ_diag_r _)
           None None (or_introl (fun H => H))) in E.
  rewrite occurs_never in E; [discriminate|].
  intros p t. now destruct (word_here ws p t).
Qed.

(** [re.sub] brings no word into the text that did not stand there. *)
Theorem sub_brings_none W s :
  forallb plain_word W = true ->
  search (bounded_words W) s = false ->
  search (bounded_words W) (sub (bounded_words ws) " " s) = false.
Proof.
  intros HW. unfold search, sub. rewrite !search_bounded by exact HW.
  intros Hs. destruct (occurs (word_here W) None (sub_from _ _ _ _ _)) eqn:E;
    [|reflexivity].
  apply (sub_keeps W HW (S (String.length s)) s (Nat.lt_succ_diag_r _)
           None None (or_introl (fun H => H))) in E.
  apply (occurs_impl _ (word_here W)) in E; [congruence|].
  intros p t H. now apply andb_true_iff in H as [H _].
Qed.

(** When the pattern matches nowhere, [re.sub] gives the text back. *)
Lemma sub_nothing s : forall prev,
  search_from (bounded_words ws) prev s = false ->
  sub_from (bounded_words ws) " " prev 0 s = s.
Proof.
  induction s as [|c s IH]; intros prev H; simpl in H |- *;
    destruct (match_at (bounded_words ws) prev _); try discriminate;
    [reflexivity|]. now rewrite IH.
Qed.

End Erasure.

(** *** Squishing keeps the words apart *)

Lemma space_not_word c : Chr.is_space c = true -> Chr.is_word c = false.
Proof.
  intros H.
  pose proof (Shape.all_ascii_spec
                (fun c => implb (Chr.is_space c) (negb (Chr.is_word c)))
                ltac:(vm_compute; reflexivity) c) as Hc.
  cbv beta in Hc. rewrite H in Hc. simpl in Hc. now apply negb_true_iff in Hc.
Qed.

Lemma starts_with_space_word s :
  Str.starts_with_space s = true -> word_after s = false.
Proof. destruct s as [|c s]; [reflexivity|]. simpl. apply space_not_word. Qed.

Lemma squish_space c s :
  Chr.is_space c = true -> Str.squish (String c s) = Str.squish s.
Proof. intros H. unfold Str.squish. simpl. now rewrite H. Qed.

Lemma squish_cons c s :
  Chr.is_space c = false ->
  Str.squish (String c s)
  = String c (if Str.starts_with_space s
              then if Str.is_empty (Str.squish s) then ""
                   else String " " (Str.squish s)
              else Str.squish s).
Proof.
  intros H. unfold Str.squish. cbn [Str.split]. rewrite H.
  pose proof (Words.split_words s) as Hw.
  destruct (Str.starts_with_space s).
  - destruct (Str.split s) as [|w ws]; [reflexivity|].
    inversion Hw as [|? ? [Hne _] _]; subst.
    destruct w as [|a w]; [congruence|]. destruct ws; reflexivity.
  - destruct (Str.split s) as [|w ws]; [reflexivity|].
    destruct ws; reflexivity.
Qed.

Lemma squish_prefix u :
  Str.all no_space u = true ->
  forall c s r',
    Chr.is_space c = false ->
    after (String c u) (Str.squish (String c s)) = Some r' ->
    word_after r' = false ->
    exists r, after (String c u) (String c s) = Some r /\ word_after r = false.
Proof.
  induction u as [|a u IH]; intros Hu c s r' Hc H Hr'.
  - rewrite (squish_cons c s Hc) in H. cbn [after] in H |- *.
    rewrite Ascii.eqb_refl in H |- *. injection H as <-.
    exists s. split; [reflexivity|].
    destruct (Str.starts_with_space s) eqn:Es;
      [now apply starts_with_space_word|].
    destruct s as [|c2 s2]; [discriminate|]. simpl in Es.
    rewrite (squish_cons c2 s2 Es) in Hr'. exact Hr'.
  - cbn [Str.all] in Hu. apply andb_true_iff in Hu as [Ha Hu].
    rewrite (squish_cons c s Hc) in H.
    change (after (String c (String a u)) (String c ?x))
      with (if Ascii.eqb c c then after (String a u) x else None) in H |- *.
    rewrite Ascii.eqb_refl in H |- *.
    destruct (Str.starts_with_space s) eqn:Es.
    + destruct (Str.is_empty (Str.squish s)); [discriminate|].
      cbn [after] in H. destruct (Ascii.eqb a " ") eqn:E; [|discriminate].
      apply Ascii.eqb_eq in E. subst a. discriminate.
    + destruct s as [|c2 s2]; [discriminate|]. simpl in Es.
      assert (a = c2) as ->.
      { rewrite (squish_cons c2 s2 Es) in H. cbn [after] in H.
        destruct (Ascii.eqb a c2) eqn:E; [|discriminate].
        now apply Ascii.eqb_eq in E. }
      exact (IH Hu c2 s2 r' Es H Hr').
Qed.

Lemma occurs_prev W prev prev' s :
  word_before prev = false ->
  occurs (word_here W) prev' s = true -> occurs (word_here W) prev s = true.
Proof.
  intros Hb H.
  assert (Hh : word_here W prev' s = true -> word_here W prev s = true).
  { intros Hw. destruct (word_here_stands _ _ _ Hw) as (w & _ & Hin & Hst).
    apply (stands_word_here W w); [exact Hin|].
    rewrite stands_none in Hst |- *. rewrite Hb.
    now apply andb_true_iff in Hst as [_ ->]. }
  destruct s as [|c s]; simpl in H |- *.
  - rewrite orb_false_r in *. auto.
  - apply orb_true_iff in H as [H|H]; [now rewrite Hh|].
    rewrite H. apply orb_true_r.
Qed.

(** A word that stands in the squished text stands in the text. *)
Lemma squish_keeps W :
  forallb plain_word W = true ->
  forall s prev prev',
    (word_before prev' = false -> word_before prev = false)
    \/ Str.starts_with_space s = true ->
    occurs (word_here W) prev' (Str.squish s) = true ->
    occurs (word_here W) prev s = true.
Proof.
  intros HW. induction s as [|c s IH]; intros prev prev' Hc H.
  - simpl in H. rewrite (word_here_empty W prev' HW) in H. discriminate.
  - destruct (Chr.is_space c) eqn:Ec.
    + rewrite (squish_space c s Ec) in H. apply occurs_later.
      apply (IH (Some c) (Some c) (or_introl (fun E => E))).
      apply (occurs_prev W (Some c) prev'); [|exact H].
      simpl. now apply space_not_word.
    + destruct Hc as [Hc|Hc]; [|simpl in Hc; congruence].
      pose proof (squish_cons c s Ec) as Hq.
      destruct (occurs (word_here W) prev' (Str.squish (String c s))) eqn:Ho;
        [clear H|discriminate].
      rewrite Hq in Ho. cbn [occurs] in Ho.
      apply orb_true_iff in Ho as [H|H].
      * apply occurs_here. rewrite <- Hq in H.
        destruct (word_here_stands _ _ _ H) as (w & _ & Hin & Hst).
        destruct (stands_split _ _ _ Hst) as (r' & Ea & Hb' & Hr').
        pose proof (plain_in _ _ HW Hin) as Hp.
        destruct (plain_first w Hp) as (a & u & -> & _).
        assert (a = c) as ->.
        { rewrite Hq in Ea. cbn [after] in Ea.
          destruct (Ascii.eqb a c) eqn:E; [|discriminate].
          now apply Ascii.eqb_eq in E. }
        assert (Hu : Str.all no_space u = true).
        { pose proof (plain_no_space _ Hp) as Hn. cbn [Str.all] in Hn.
          now apply andb_true_iff in Hn as [_ Hn]. }
        destruct (squish_prefix u Hu c s r' Ec Ea Hr') as (r & Er & Hr).
        apply (stands_word_here W (String c u)); [exact Hin|].
        unfold stands. now rewrite Er, (Hc Hb'), Hr.
      * apply occurs_later.
        destruct (Str.starts_with_space s) eqn:Es.
        -- destruct (Str.is_empty (Str.squish s)).
           ++ simpl in H. rewrite (word_here_empty W _ HW) in H. discriminate.
           ++ cbn [occurs] in H.
              rewrite (word_here_first W _ " " _ HW eq_refl) in H.
              exact (IH (Some c) (Some " "%char) (or_intror eq_refl) H).
        -- exact (IH (Some c) (Some c) (or_introl (fun E => E)) H).
Qed.

Theorem squish_brings_none W s :
  forallb plain_word W = true ->
  search (bounded_words W) s = false ->
  search (bounded_words W) (Str.squish s) = false.
Proof.
  intros HW. unfold search. rewrite !search_bounded by exact HW.
  intros Hs. destruct (occurs (word_here W) None (Str.squish s)) eqn:E;
    [|reflexivity].
  apply (squish_keeps W HW s None None (or_introl (fun H => H))) in E.
  congruence.
Qed.

(** *** The two soft passes *)

Lemma cheap_is_bounded : pat_cheap = bounded_words cheap_words.
Proof. reflexivity. Qed.

Lemma expensive_is_bounded : pat_expensive = bounded_words expensive_words.
Proof. reflexivity. Qed.

Lemma cheap_plain : forallb plain_word cheap_words = true.
Proof. reflexivity. Qed.

Lemma expensive_plain : forallb plain_word expensive_words = true.
Proof. reflexivity. Qed.

Lemma soft_cheap_eq st :
  soft_cheap st
  = {| text := sub pat_cheap " " (text st);
       min_price := min_price st;
       max_price := match max_price st with
                    | Some v => Some v
                    | None => if search pat_cheap (text st)
                              then Some f15 else None
                    end |}.
Proof.
  unfold soft_cheap. destruct (search pat_cheap (text st)) eqn:E.
  - now destruct (max_price st).
  - unfold sub, search in *. rewrite cheap_is_bounded in *.
    rewrite (sub_nothing cheap_words _ None E).
    destruct st as [t mn [mx|]]; reflexivity.
Qed.

Lemma soft_expensive_eq st :
  soft_expensive st
  = {| text := sub pat_expensive " " (text st);
       min_price := match min_price st with
                    | Some v => Some v
                    | None => if search pat_expensive (text st)
                              then Some f100 else None
                    end;
       max_price := max_price st |}.
Proof.
  unfold soft_expensive. destruct (search pat_expensive (text st)) eqn:E.
  - now destruct (min_price st).
  - unfold sub, search in *. rewrite expensive_is_bounded in *.
    rewrite (sub_nothing expensive_words _ None E).
    destruct st as [t [mn|] mx]; reflexivity.
Qed.

(** The passes run in their order, and none of the first four fails. *)
Lemma soft_after_numbers q :
  exists st1 st2 st3 st4,
    scan_all interval_step [pat_between; pat_dash] (initial q) = Some st1
    /\ scan_all upper_step [pat_under; pat_le; pat_upto] st1 = Some st2
    /\ scan_all lower_step [pat_over; pat_ge] st2 = Some st3
    /\ scan_all approx_step [pat_around; pat_exactly] st3 = Some st4
    /\ _extract_price_filters q
       = Some (finish q (soft_expensive (soft_cheap st4))).
Proof.
  destruct (Passes.passes_ok q) as (st & H & _).
  unfold _extract_price_filters. rewrite H. unfold passes in H.
  destruct (scan_all interval_step _ (initial q)) as [st1|] eqn:E1;
    [|discriminate]. cbn [bind] in H.
  destruct (scan_all upper_step _ st1) as [st2|] eqn:E2;
    [|discriminate]. cbn [bind] in H.
  destruct (scan_all lower_step _ st2) as [st3|] eqn:E3;
    [|discriminate]. cbn [bind] in H.
  destruct (scan_all approx_step _ st3) as [st4|] eqn:E4;
    [|discriminate]. cbn [bind] in H.
  injection H as <-. exists st1, st2, st3, st4. now repeat split.
Qed.

(** After the two substitutions no soft word stands in the text, and none
    in the squished text. *)
Lemma soft_words_gone s :
  let t6 := sub pat_expensive " " (sub pat_cheap " " s) in
  search pat_cheap (Str.squish t6) = false
  /\ search pat_expensive (Str.squish t6) = false.
Proof.
  cbv zeta. rewrite cheap_is_bounded, expensive_is_bounded. split.
  - apply squish_brings_none; [exact cheap_plain|].
    apply sub_brings_none; [exact expensive_plain | exact cheap_plain|].
    apply sub_erases. exact cheap_plain.
  - apply squish_brings_none; [exact expensive_plain|].
    apply sub_erases. exact expensive_plain.
Qed.

End Soft.

(** * The claims *)

(** ** C1 *)

(** C1, as stated, fails: the range of ["over 20 under 10"] has both bounds
    and its lower bound, 20, is above its upper bound, 10. *)
Lemma C1_not_normalized :
  _extract_price_filters "over 20 under 10"
  = Some ("over 20 under 10", Some (Flt.of_N 20), Some (Flt.of_N 10))
  /\ Flt.leb (Flt.of_N 20) (Flt.of_N 10) = false.
Proof. split; vm_compute; reflexivity. Qed.

(** C1, amended: the pair of an interval phrase is sorted, so that an
    interval match met with an empty range leaves a lower bound that is at
    most the upper bound.  (Bounds from several phrases are tightened one
    by one and the final range is returned as it is.) *)
Theorem C1_interval_sorted (st st' : state) (m : rmatch) :
  min_price st = None -> max_price st = None ->
  interval_step st m = Some st' ->
  exists lo hi,
    min_price st' = Some lo /\ max_price st' = Some hi
    /\ Flt.leb lo hi = true.
Proof.
  intros Hmin Hmax. unfold interval_step.
  destruct (group 1 m) as [t1|]; [|discriminate]. cbn [bind].
  destruct (_to_float t1) as [a|] eqn:Ea; [|discriminate]. cbn [bind].
  destruct (group 2 m) as [t2|]; [|discriminate]. cbn [bind].
  destruct (_to_float t2) as [b|] eqn:Eb; [|discriminate]. cbn [bind].
  destruct (Flt.sorted2 a b) as [lo hi] eqn:Es.
  intros [= <-]. cbn [min_price max_price]. rewrite Hmin, Hmax.
  exists lo, hi. repeat split.
  apply (FltFacts.sorted2_ordered a b); [| |exact Es].
  - exact (FltFacts.py_float_number _ _ Ea).
  - exact (FltFacts.py_float_number _ _ Eb).
Qed.

Lemma C1_interval_sorted_witness :
  let st' := {| text := "   "; min_price := Some (Flt.of_N 5);
                max_price := Some (Flt.of_N 10) |} in
  interval_step (initial "5-10") m_5_10 = Some st'
  /\ exists lo hi,
       min_price st' = Some lo /\ max_price st' = Some hi
       /\ Flt.leb lo hi = true.
Proof.
  split; [reflexivity|].
  apply (C1_interval_sorted (initial "5-10") _ m_5_10); reflexivity.
Defined.

(** ** C2 *)

(** C2, as stated, fails: the cleaned text of ["under 10"] is the query
    itself, and extracting from it again gives the upper bound 10. *)
Lemma C2_not_idempotent :
  _extract_price_filters "under 10"
  = Some ("under 10", None, Some (Flt.of_N 10))
  /\ range_of (r <- _extract_price_filters "under 10" ;;
               _extract_price_filters (fst (fst r)))
     = Some (None, Some (Flt.of_N 10)).
Proof. split; vm_compute; reflexivity. Qed.

(** C2, amended: when the cleaned text of a first extraction holds no
    recognisable price phrase, a second extraction from it gives the open
    range and the same text. *)
Theorem C2_reextract (q c : string) (mn mx : option Flt.float) :
  _extract_price_filters q = Some (c, mn, mx) ->
  phrase_free c = true ->
  _extract_price_filters c = Some (c, None, None).
Proof.
  intros H Hfree.
  pose proof (Passes.phrase_free_extract c Hfree) as Hc.
  rewrite Hc. f_equal. f_equal. f_equal.
  unfold _extract_price_filters in H.
  destruct (Passes.passes_ok q) as (st & Hp & Hl).
  rewrite Hp in H. cbn [bind] in H. unfold finish in H.
  injection H as H _ _.
  destruct (Str.is_empty (Str.squish (text st))) eqn:E.
  - subst c.
    unfold _extract_price_filters in Hc. rewrite Hp in Hc. cbn [bind] in Hc.
    unfold finish in Hc. rewrite E in Hc. now injection Hc as <- _ _.
  - assert (Hlow : Str.lower c = c).
    { apply Words.lower_id. subst c. now apply Words.all_squish. }
    rewrite Hlow. subst c. rewrite Words.squish_idempotent. now rewrite E.
Qed.

Lemma C2_reextract_witness :
  _extract_price_filters "cleaning spray"
  = Some ("cleaning spray", None, None).
Proof.
  apply (C2_reextract "cleaning spray under 10 dollars" "cleaning spray"
           None (Some (Flt.of_N 10))); reflexivity.
Defined.

(** ** C3 *)

(** C3, as stated, fails: ["towels 5 to 10 dollars"] has no bound at all. *)
Lemma C3_bare_to_not_recognized :
  _extract_price_filters "towels 5 to 10 dollars"
  = Some ("towels 5 to 10 dollars", None, None).
Proof. vm_compute. reflexivity. Qed.

(** C3, amended: ["towels 5-10"], ["towels 5 - 10 dollars"] and
    ["towels from 5 to 10 dollars"] all give min = 5 and max = 10; the
    interval pass knows "X to Y" after "between" or "from" only, so
    ["towels 5 to 10 dollars"] gives the open range. *)
Theorem C3_separator_tolerance :
  range_of (_extract_price_filters "towels 5-10")
  = Some (Some (Flt.of_N 5), Some (Flt.of_N 10))
  /\ range_of (_extract_price_filters "towels 5 - 10 dollars")
     = Some (Some (Flt.of_N 5), Some (Flt.of_N 10))
  /\ range_of (_extract_price_filters "towels from 5 to 10 dollars")
     = Some (Some (Flt.of_N 5), Some (Flt.of_N 10))
  /\ range_of (_extract_price_filters "towels 5 to 10 dollars")
     = Some (None, None).
Proof. repeat split; vm_compute; reflexivity. Qed.

(** ** C4 *)

(** C4, as stated, fails: the cleaned text of the empty query is empty. *)
Lemma C4_empty_query :
  _extract_price_filters "" = Some ("", None, None).
Proof. vm_compute. reflexivity. Qed.

(** C4, amended: for every query that is not empty the extractor returns a
    cleaned text that is not empty, and when the removal of the price
    phrases leaves nothing of the working text, the cleaned text is the raw
    query. *)
Theorem C4_cleaned_nonempty (q : string) :
  q <> "" ->
  exists st c mn mx,
    passes q = Some st
    /\ _extract_price_filters q = Some (c, mn, mx)
    /\ c <> ""
    /\ (Str.squish (text st) = "" -> c = q).
Proof.
  intros Hq. destruct (Passes.passes_ok q) as (st & Hp & _).
  unfold _extract_price_filters. rewrite Hp. cbn [bind]. unfold finish.
  exists st. do 3 eexists. split; [reflexivity|]. split; [reflexivity|].
  destruct (Str.is_empty (Str.squish (text st))) eqn:E.
  - split; [exact Hq | reflexivity].
  - split.
    + now apply StrFacts.is_empty_false.
    + intros H0. rewrite H0 in E. discriminate.
Qed.

Lemma C4_cleaned_nonempty_witness :
  exists st c mn mx,
    passes "under $10" = Some st
    /\ _extract_price_filters "under $10" = Some (c, mn, mx)
    /\ c <> ""
    /\ (Str.squish (text st) = "" -> c = "under $10").
Proof. apply (C4_cleaned_nonempty "under $10"). discriminate. Defined.

(** ** C5 *)

(** C5, as stated, fails: ["Towels"] holds no price phrase, yet its cleaned
    text, in lower case, is not the trimmed query. *)
Lemma C5_cleaned_is_lowercased :
  phrase_free "Towels" = true
  /\ _extract_price_filters "Towels" = Some ("towels", None, None)
  /\ Str.strip "Towels" = "Towels".
Proof. repeat split; vm_compute; reflexivity. Qed.

(** C5, amended: the extractor never fails, and for a query without a
    recognisable price phrase (the empty query is one) the range is open on
    both sides and the cleaned text is the query in lower case with every
    run of whitespace turned into one space and none at either end, or the
    raw query when that text is empty. *)
Theorem C5_never_fails (q : string) :
  (exists r, _extract_price_filters q = Some r)
  /\ (phrase_free q = true ->
      _extract_price_filters q
      = Some (if Str.is_empty (Str.squish (Str.lower q)) then q
              else Str.squish (Str.lower q), None, None)).
Proof.
  split.
  - destruct (Passes.passes_ok q) as (st & Hp & _).
    unfold _extract_price_filters. rewrite Hp. cbn [bind]. eauto.
  - apply Passes.phrase_free_extract.
Qed.

Lemma C5_never_fails_witness :
  _extract_price_filters "  Soft  Towels "
  = Some ("soft towels", None, None)
  /\ _extract_price_filters "" = Some ("", None, None).
Proof.
  split.
  - apply (proj2 (C5_never_fails "  Soft  Towels ")). reflexivity.
  - apply (proj2 (C5_never_fails "")). reflexivity.
Defined.

(** ** C6 *)

(** C6, as stated, fails: the soft word of ["cheap"] is not erased from
    the cleaned text.  The word is all there is, the working text is left
    blank, and the query comes back as it was typed. *)
Lemma C6_word_not_erased :
  _extract_price_filters "cheap" = Some ("cheap", None, Some (Flt.of_N 15))
  /\ Re.search pat_cheap "cheap" = true.
Proof. split; vm_compute; reflexivity. Qed.

(** C6, amended.  At every position the first soft pattern matches the
    first of "cheap", "inexpensive", "budget" that stands there as a word
    of its own, and the second pattern the first of "expensive", "premium",
    "high-end".  The soft passes run on what the four numeric passes leave,
    whichever comes first in the query: the upper bound is 15.0 only where
    they left none and a word of the first list stands in their text, the
    lower bound 100.0 only where they left none and a word of the second
    list stands in the text; the words are replaced by a space in the
    working text.  The cleaned text is the working text squished, in which
    no soft word stands any more, or the query as typed, soft words
    included, when nothing else is left of it. *)
Theorem C6_soft_words :
  (forall prev s,
      option_map Re.group0 (Re.match_at pat_cheap prev s)
      = word_at cheap_words prev s
      /\ option_map Re.group0 (Re.match_at pat_expensive prev s)
         = word_at expensive_words prev s)
  /\ (forall q,
        exists st1 st2 st3 st4,
          scan_all interval_step [pat_between; pat_dash] (initial q) = Some st1
          /\ scan_all upper_step [pat_under; pat_le; pat_upto] st1 = Some st2
          /\ scan_all lower_step [pat_over; pat_ge] st2 = Some st3
          /\ scan_all approx_step [pat_around; pat_exactly] st3 = Some st4
          /\ let t5 := Re.sub pat_cheap " " (text st4) in
             let t6 := Re.sub pat_expensive " " t5 in
             _extract_price_filters q
             = Some (if Str.is_empty (Str.squish t6) then q else Str.squish t6,
                     match min_price st4 with
                     | Some v => Some v
                     | None => if Re.search pat_expensive t5
                               then Some (Flt.of_N 100) else None
                     end,
                     match max_price st4 with
                     | Some v => Some v
                     | None => if Re.search pat_cheap (text st4)
                               then Some (Flt.of_N 15) else None
                     end)
             /\ Re.search pat_cheap (Str.squish t6) = false
             /\ Re.search pat_expensive (Str.squish t6) = false)
  /\ _extract_price_filters "cheap, but over 5"
     = Some (", but", Some (Flt.of_N 5), Some (Flt.of_N 15))
  /\ _extract_price_filters "premium detergent"
     = Some ("detergent", Some (Flt.of_N 100), None)
  /\ _extract_price_filters "cheap under 50"
     = Some ("cheap under 50", None, Some (Flt.of_N 50))
  /\ _extract_price_filters "expensive towels over 50"
     = Some ("towels", Some (Flt.of_N 50), None).
Proof.
  split; [|split].
  - intros prev s. split.
    + exact (Soft.match_at_bounded cheap_words prev s Soft.cheap_plain).
    + exact (Soft.match_at_bounded expensive_words prev s Soft.expensive_plain).
  - intros q.
    destruct (Soft.soft_after_numbers q)
      as (st1 & st2 & st3 & st4 & E1 & E2 & E3 & E4 & E).
    exists st1, st2, st3, st4. repeat (split; [assumption|]).
    cbv zeta. split; [|exact (Soft.soft_words_gone (text st4))].
    rewrite E, Soft.soft_expensive_eq, Soft.soft_cheap_eq.
    unfold finish. cbn [text min_price max_price]. reflexivity.
  - repeat split; vm_compute; reflexivity.
Qed.

(** ** C7 *)

(** Two upper bounds in a row leave the smaller, two lower bounds the
    larger: the updates themselves tighten as the claim says. *)
Lemma tighten_twice (x y : Flt.float) :
  lower_max (lower_max None x) y = Some (Flt.min x y)
  /\ raise_min (raise_min None x) y = Some (Flt.max x y).
Proof. split; reflexivity. Qed.

(** C7, the examples of the claim: "under 50" with "under 10" gives
    max = 10 and "over 5" with "over 20" gives min = 20. *)
Lemma tighten_examples :
  range_of (_extract_price_filters "towels under 50 under 10")
  = Some (None, Some (Flt.of_N 10))
  /\ range_of (_extract_price_filters "towels over 5 over 20")
     = Some (Some (Flt.of_N 20), None).
Proof. split; vm_compute; reflexivity. Qed.

(** C7 at ["under 1000 under 500"]: [_NUM] takes the first three digits of
    1000, the upper bound comes out as 100 where the claim has
    min(1000, 500) = 500, and the fourth digit stays in the text. *)
Theorem C7_four_digits :
  _extract_price_filters "under 1000 under 500"
  = Some ("0", None, Some (Flt.of_N 100))
  /\ List.map group0 (finditer pat_under " under 1000 under 500 ")
     = ["under 100"; "under 500"]
  /\ Flt.min (Flt.of_N 1000) (Flt.of_N 500) = Flt.of_N 500
  /\ Flt.of_N 100 <> Flt.of_N 500.
Proof. repeat split; vm_compute; try reflexivity. discriminate. Qed.

(** ** C8 *)

(** The examples of the claim: ["between 15 and 5"] and
    ["between 5 and 15"] both give min = 5 and max = 15. *)
Lemma interval_examples :
  range_of (_extract_price_filters "between 15 and 5")
  = Some (Some (Flt.of_N 5), Some (Flt.of_N 15))
  /\ range_of (_extract_price_filters "between 5 and 15")
     = Some (Some (Flt.of_N 5), Some (Flt.of_N 15)).
Proof. split; vm_compute; reflexivity. Qed.

(** C8 at the numbers 5 and 1000: the range depends on their order.  In
    ["between 1000 and 5"] the word "and" has to follow the first number,
    so all of 1000 is read; in ["between 5 and 1000"] nothing has to follow
    the second number, [_NUM] takes its first three digits, the upper bound
    comes out as 100 and the fourth digit stays in the text. *)
Theorem C8_four_digits :
  _extract_price_filters "between 5 and 1000"
  = Some ("0", Some (Flt.of_N 5), Some (Flt.of_N 100))
  /\ _extract_price_filters "between 1000 and 5"
     = Some ("between 1000 and 5", Some (Flt.of_N 5), Some (Flt.of_N 1000))
  /\ List.map Re.group0 (Re.finditer pat_between " between 5 and 1000 ")
     = ["between 5 and 100"]
  /\ List.map Re.group0 (Re.finditer pat_between " between 1000 and 5 ")
     = ["between 1000 and 5"]
  /\ Flt.of_N 100 <> Flt.of_N 1000.
Proof. repeat split; vm_compute; try reflexivity. discriminate. Qed.

(** ** C9 *)

(** C9: for a positive [top_k], a query the route accepts and an embedder
    that returns one vector for each text, the route asks the store for [max(top_k, 12)] points,
    that is 12 when [top_k <= 12] and [top_k] above, and hands back the
    first [top_k] of them. *)
Theorem C9_candidate_pool
        (vector point payload : Type)
        (embed_texts : list string -> list vector)
        (client_search : SearchCall vector -> list point)
        (payload_of : point -> payload)
        (q : string) (top_k : Z) (threshold : Flt.float)
        (category : option string) :
  (0 < top_k)%Z ->
  q <> "" ->
  (forall ts, List.length (embed_texts ts) = List.length ts) ->
  exists call,
    search embed_texts client_search payload_of q top_k threshold category
    = Some (List.map payload_of (slice_to top_k (client_search call)))
    /\ limit call = Z.max top_k 12
    /\ ((top_k <= 12)%Z -> limit call = 12%Z)
    /\ ((12 < top_k)%Z -> limit call = top_k).
Proof.
  intros Hk Hq Hembed. unfold search.
  replace (accepts q) with true by (destruct q; [congruence | reflexivity]).
  cbn [negb].
  destruct (proj1 (Passes.extract_total q)) as [[[c mn] mx] ->]. cbn [bind].
  pose proof (Hembed [c]) as E.
  destruct (embed_texts [c]) as [|vec vs]; [discriminate|].
  cbn [hd_error bind].
  eexists. split; [reflexivity|]. cbn [limit search_call].
  repeat split; lia.
Qed.

Lemma C9_candidate_pool_witness :
  exists call : SearchCall unit,
    search (List.map (fun _ => tt)) (fun _ => [1; 2; 3]%nat) (fun p => p)
           "towels" 8 (Flt.of_decimal 2 1) None
    = Some (List.map (fun p => p)
              (slice_to 8 ((fun _ => [1; 2; 3]%nat) call)))
    /\ limit call = Z.max 8 12
    /\ ((8 <= 12)%Z -> limit call = 12%Z)
    /\ ((12 < 8)%Z -> limit call = 8%Z).
Proof.
  apply (C9_candidate_pool unit nat nat (List.map (fun _ => tt))
           (fun _ => [1; 2; 3]%nat) (fun p => p) "towels" 8
           (Flt.of_decimal 2 1) None).
  - reflexivity.
  - discriminate.
  - intros ts. apply List.length_map.
Defined.

(** ** C10 *)

(** C10: the bound patterns have no word-boundary anchor.  In
    ["recover 20 files"] the pattern of "over" matches inside "recover",
    the lower bound becomes 20 and the text is left as ["rec files"]. *)
Theorem C10_keyword_inside_word :
  List.map group0 (finditer pat_over " recover 20 files ") = ["over 20"]
  /\ _extract_price_filters "recover 20 files"
     = Some ("rec files", Some (Flt.of_N 20), None).
Proof. split; vm_compute; reflexivity. Qed.

(** * Further properties *)

Module Bounds.

Import Flt.

Lemma bound_ok_number f : bound_ok f = true -> is_nan f = false.
Proof. now destruct f. Qed.

Lemma binary_round_aux_bound m e l :
  (0 <= m)%Z -> bound_ok (binary_round_aux prec emax false m e l) = true.
Proof.
  intros H. unfold binary_round_aux.
  pose proof (FltFacts.shr_fexp_nonneg m e l H) as H1.
  destruct (shr_fexp prec emax m e l) as [mrs' e']. simpl in H1.
  pose proof (FltFacts.round_nearest_even_nonneg _ (loc_of_shr_record mrs') H1)
    as H2.
  pose proof (FltFacts.shr_fexp_nonneg _ e' loc_Exact H2) as H3.
  destruct (shr_fexp prec emax _ e' loc_Exact) as [mrs'' e'']. simpl in H3.
  destruct (shr_m mrs''); [reflexivity| |lia].
  now destruct (e'' <=? emax - prec)%Z.
Qed.

Lemma of_decimal_bound n k : bound_ok (of_decimal n k) = true.
Proof.
  destruct n as [|p]; [reflexivity|].
  unfold of_decimal, SFdiv, SFdiv_core_binary.
  set (m' := match _ with Z.pos _ => _ | Z0 => _ | Z.neg _ => _ end).
  assert (Hm : (0 <= m')%Z).
  { subst m'. destruct (_ - _ - _)%Z; try lia.
    apply Z.shiftl_nonneg. lia. }
  pose proof (Z.div_pos m' (Z.pos (pow10 k)) Hm eq_refl) as Hq.
  unfold Z.div in Hq.
  destruct (Z.div_eucl m' (Z.pos (pow10 k))) as [q r]. simpl in Hq.
  now apply binary_round_aux_bound.
Qed.

Lemma py_float_bound s f : py_float s = Some f -> bound_ok f = true.
Proof.
  unfold py_float. destruct (span_digits s) as [ip rest].
  destruct rest as [|c fp].
  - destruct (Str.is_empty ip); [discriminate|].
    intros [= <-]. apply of_decimal_bound.
  - destruct (_ && _); [|discriminate].
    intros [= <-]. apply of_decimal_bound.
Qed.

Lemma mul_bound a b :
  bound_ok a = true -> bound_ok b = true ->
  a <> S754_zero false -> a <> S754_infinity false ->
  bound_ok (mul a b) = true.
Proof.
  destruct a as [sa|sa| |sa ma ea]; try discriminate;
    destruct sa; try discriminate; intros _ Hb Hz Hi; try congruence.
  destruct b as [sb|sb| |sb mb eb]; try discriminate;
    destruct sb; try discriminate; try reflexivity.
  unfold mul, SFmul. apply binary_round_aux_bound. lia.
Qed.

Lemma max_bound a b :
  bound_ok a = true -> bound_ok b = true -> bound_ok (max a b) = true.
Proof. unfold max. now destruct (ltb a b). Qed.

Lemma min_bound a b :
  bound_ok a = true -> bound_ok b = true -> bound_ok (min a b) = true.
Proof. unfold min. now destruct (ltb b a). Qed.

Lemma sorted2_bound a b lo hi :
  bound_ok a = true -> bound_ok b = true -> sorted2 a b = (lo, hi) ->
  bound_ok lo = true /\ bound_ok hi = true.
Proof. unfold sorted2. destruct (ltb b a); intros Ha Hb [= <- <-]; auto. Qed.

(** On numbers that are not negative [<=] is transitive. *)
Lemma leb_trans x y z :
  bound_ok x = true -> bound_ok y = true -> bound_ok z = true ->
  leb x y = true -> leb y z = true -> leb x z = true.
Proof.
  unfold leb, SFleb.
  destruct x as [sx|sx| |sx mx ex]; try discriminate;
    destruct sx; try discriminate;
  destruct y as [sy|sy| |sy my ey]; try discriminate;
    destruct sy; try discriminate;
  destruct z as [sz|sz| |sz mz ez]; try discriminate;
    destruct sz; try discriminate;
    intros _ _ _; simpl; try reflexivity; try discriminate.
  change (Pos.compare_cont Eq mx my) with (Pos.compare mx my).
  change (Pos.compare_cont Eq my mz) with (Pos.compare my mz).
  change (Pos.compare_cont Eq mx mz) with (Pos.compare mx mz).
  destruct (Z.compare_spec ex ey), (Z.compare_spec ey ez),
    (Z.compare_spec ex ez); try lia; try reflexivity; try discriminate;
    destruct (Pos.compare_spec mx my), (Pos.compare_spec my mz),
      (Pos.compare_spec mx mz); try lia; try reflexivity; try discriminate.
Qed.

Lemma leb_refl_bound x : bound_ok x = true -> leb x x = true.
Proof. intros H. apply FltFacts.leb_refl. now apply bound_ok_number. Qed.

End Bounds.

Module Tighten.

Import Re Bounds.

Lemma tighter_refl a : range_ok a -> tighter a a.
Proof.
  intros [Hmin Hmax]. split; intros v Hv; exists v; (split; [exact Hv|]).
  - rewrite Hv in Hmin. now apply leb_refl_bound.
  - rewrite Hv in Hmax. now apply leb_refl_bound.
Qed.

Lemma tighter_trans a b c :
  range_ok a -> range_ok b -> range_ok c ->
  tighter a b -> tighter b c -> tighter a c.
Proof.
  intros [Ha1 Ha2] [Hb1 Hb2] [Hc1 Hc2] [Hab1 Hab2] [Hbc1 Hbc2].
  split; intros v Hv.
  - destruct (Hab1 v Hv) as (v1 & E1 & L1).
    destruct (Hbc1 v1 E1) as (v2 & E2 & L2).
    exists v2. split; [exact E2|].
    rewrite Hv in Ha1. rewrite E1 in Hb1. rewrite E2 in Hc1.
    exact (leb_trans v v1 v2 Ha1 Hb1 Hc1 L1 L2).
  - destruct (Hab2 v Hv) as (v1 & E1 & L1).
    destruct (Hbc2 v1 E1) as (v2 & E2 & L2).
    exists v2. split; [exact E2|].
    rewrite Hv in Ha2. rewrite E1 in Hb2. rewrite E2 in Hc2.
    exact (leb_trans v2 v1 v Hc2 Hb2 Ha2 L2 L1).
Qed.

(** The two updates keep a bound a number and only tighten it. *)
Lemma raise_min_ok cur v :
  opt_ok cur -> bound_ok v = true ->
  opt_ok (raise_min cur v)
  /\ (forall c, cur = Some c ->
        exists c', raise_min cur v = Some c' /\ Flt.leb c c' = true).
Proof.
  intros Hc Hv. destruct cur as [c|]; simpl in *.
  - split; [now apply max_bound|].
    intros c0 [= <-]. eexists. split; [reflexivity|].
    apply FltFacts.max_ge; now apply bound_ok_number.
  - split; [exact Hv | discriminate].
Qed.

Lemma lower_max_ok cur v :
  opt_ok cur -> bound_ok v = true ->
  opt_ok (lower_max cur v)
  /\ (forall c, cur = Some c ->
        exists c', lower_max cur v = Some c' /\ Flt.leb c' c = true).
Proof.
  intros Hc Hv. destruct cur as [c|]; simpl in *.
  - split; [now apply min_bound|].
    intros c0 [= <-]. eexists. split; [reflexivity|].
    apply FltFacts.min_le; now apply bound_ok_number.
  - split; [exact Hv | discriminate].
Qed.

Lemma to_float_bound t f : _to_float t = Some f -> bound_ok f = true.
Proof. apply py_float_bound. Qed.

Lemma band_bound v :
  bound_ok v = true ->
  bound_ok (Flt.mul f0_9 v) = true /\ bound_ok (Flt.mul f1_1 v) = true.
Proof.
  intros Hv.
  assert (E9 : f0_9 = S754_finite false 8106479329266893 (-53))
    by (vm_compute; reflexivity).
  assert (E11 : f1_1 = S754_finite false 4953959590107546 (-52))
    by (vm_compute; reflexivity).
  rewrite E9, E11. split; apply mul_bound; auto; discriminate.
Qed.

Lemma same_min_tighter st mx t :
  range_ok st ->
  (forall c, max_price st = Some c ->
     exists c', mx = Some c' /\ Flt.leb c' c = true) ->
  tighter st {| text := t; min_price := min_price st; max_price := mx |}.
Proof.
  intros [Hmin _] H. split; [|exact H].
  intros v Hv. exists v. split; [exact Hv|].
  rewrite Hv in Hmin. now apply leb_refl_bound.
Qed.

Lemma same_max_tighter st mn t :
  range_ok st ->
  (forall c, min_price st = Some c ->
     exists c', mn = Some c' /\ Flt.leb c c' = true) ->
  tighter st {| text := t; min_price := mn; max_price := max_price st |}.
Proof.
  intros [_ Hmax] H. split; [exact H|].
  intros v Hv. exists v. split; [exact Hv|].
  rewrite Hv in Hmax. now apply leb_refl_bound.
Qed.

(** Each loop body keeps the bounds numbers and only tightens them. *)
Lemma interval_step_tightens st m st' :
  range_ok st -> interval_step st m = Some st' ->
  range_ok st' /\ tighter st st'.
Proof.
  intros Hok. pose proof Hok as [Hmin Hmax]. unfold interval_step.
  destruct (group 1 m) as [t1|]; [|discriminate]. cbn [bind].
  destruct (_to_float t1) as [a|] eqn:Ea; [|discriminate]. cbn [bind].
  destruct (group 2 m) as [t2|]; [|discriminate]. cbn [bind].
  destruct (_to_float t2) as [b|] eqn:Eb; [|discriminate]. cbn [bind].
  destruct (Flt.sorted2 a b) as [lo hi] eqn:Es. intros [= <-].
  destruct (sorted2_bound a b lo hi (to_float_bound _ _ Ea)
              (to_float_bound _ _ Eb) Es) as [Hlo Hhi].
  destruct (raise_min_ok (min_price st) lo Hmin Hlo) as [O1 T1].
  destruct (lower_max_ok (max_price st) hi Hmax Hhi) as [O2 T2].
  split; [split; assumption | split; assumption].
Qed.

Lemma upper_step_tightens st m st' :
  range_ok st -> upper_step st m = Some st' ->
  range_ok st' /\ tighter st st' /\ min_price st' = min_price st.
Proof.
  intros Hok. pose proof Hok as [Hmin Hmax]. unfold upper_step.
  destruct (group 1 m) as [t1|]; [|discriminate]. cbn [bind].
  destruct (_to_float t1) as [a|] eqn:Ea; [|discriminate]. cbn [bind].
  intros [= <-].
  destruct (lower_max_ok (max_price st) a Hmax (to_float_bound _ _ Ea))
    as [O2 T2].
  split; [split; assumption|]. split; [|reflexivity].
  now apply same_min_tighter.
Qed.

Lemma lower_step_tightens st m st' :
  range_ok st -> lower_step st m = Some st' ->
  range_ok st' /\ tighter st st' /\ max_price st' = max_price st.
Proof.
  intros Hok. pose proof Hok as [Hmin Hmax]. unfold lower_step.
  destruct (group 1 m) as [t1|]; [|discriminate]. cbn [bind].
  destruct (_to_float t1) as [a|] eqn:Ea; [|discriminate]. cbn [bind].
  intros [= <-].
  destruct (raise_min_ok (min_price st) a Hmin (to_float_bound _ _ Ea))
    as [O1 T1].
  split; [split; assumption|]. split; [|reflexivity].
  now apply same_max_tighter.
Qed.

Lemma approx_step_tightens st m st' :
  range_ok st -> approx_step st m = Some st' ->
  range_ok st' /\ tighter st st'.
Proof.
  intros Hok. pose proof Hok as [Hmin Hmax]. unfold approx_step.
  destruct (group 1 m) as [t1|]; [|discriminate]. cbn [bind].
  destruct (_to_float t1) as [a|] eqn:Ea; [|discriminate]. cbn [bind].
  pose proof (to_float_bound _ _ Ea) as Ha.
  destruct (band_bound a Ha) as [H9 H11].
  destruct (_ || _); intros [= <-].
  - destruct (raise_min_ok (min_price st) _ Hmin H9) as [O1 T1].
    destruct (lower_max_ok (max_price st) _ Hmax H11) as [O2 T2].
    split; [split; assumption | split; assumption].
  - destruct (raise_min_ok (min_price st) _ Hmin Ha) as [O1 T1].
    destruct (lower_max_ok (max_price st) _ Hmax Ha) as [O2 T2].
    split; [split; assumption | split; assumption].
Qed.

Lemma soft_cheap_tightens st :
  range_ok st -> range_ok (soft_cheap st) /\ tighter st (soft_cheap st).
Proof.
  intros Hok. pose proof Hok as [Hmin Hmax]. unfold soft_cheap.
  destruct (Re.search pat_cheap (text st)); [|split; [exact Hok|]; now apply tighter_refl].
  split.
  - split; cbn [min_price max_price]; [exact Hmin|].
    destruct (max_price st); [exact Hmax | reflexivity].
  - apply same_min_tighter; [exact Hok|].
    intros c Hc. rewrite Hc in *. exists c. split; [reflexivity|].
    now apply leb_refl_bound.
Qed.

Lemma soft_expensive_tightens st :
  range_ok st ->
  range_ok (soft_expensive st) /\ tighter st (soft_expensive st).
Proof.
  intros Hok. pose proof Hok as [Hmin Hmax]. unfold soft_expensive.
  destruct (Re.search pat_expensive (text st));
    [|split; [exact Hok|]; now apply tighter_refl].
  split.
  - split; cbn [min_price max_price]; [|exact Hmax].
    destruct (min_price st); [exact Hmin | reflexivity].
  - apply same_max_tighter; [exact Hok|].
    intros c Hc. rewrite Hc in *. exists c. split; [reflexivity|].
    now apply leb_refl_bound.
Qed.

(** A property of the state that every round of a loop keeps holds when
    the loop is over. *)
Section Invariant.

Variable body : state -> rmatch -> option state.
Variable I : state -> Prop.
Hypothesis body_keeps : forall st m st', I st -> body st m = Some st' -> I st'.

Lemma each_match_keeps ms : forall st st',
  I st -> each_match body ms st = Some st' -> I st'.
Proof.
  induction ms as [|m ms IH]; intros st st' Hst; simpl.
  - now intros [= <-].
  - destruct (body st m) as [st1|] eqn:E; [|discriminate]. cbn [bind].
    apply IH. exact (body_keeps _ _ _ Hst E).
Qed.

Lemma scan_all_keeps pats : forall st st',
  I st -> scan_all body pats st = Some st' -> I st'.
Proof.
  induction pats as [|pat pats IH]; intros st st' Hst; simpl.
  - now intros [= <-].
  - destruct (scan body pat st) as [st1|] eqn:E; [|discriminate]. cbn [bind].
    apply IH. unfold scan in E. exact (each_match_keeps _ _ _ Hst E).
Qed.

End Invariant.

Lemma step_tightens body st m st' :
  is_step body -> range_ok st -> body st m = Some st' ->
  range_ok st' /\ tighter st st'.
Proof.
  intros [ -> | [ -> | [ -> | -> ] ] ] Hok H.
  - now apply (interval_step_tightens st m).
  - destruct (upper_step_tightens st m st' Hok H) as (? & ? & _). auto.
  - destruct (lower_step_tightens st m st' Hok H) as (? & ? & _). auto.
  - now apply (approx_step_tightens st m).
Qed.

Lemma pass_tightens body pats st st' :
  is_step body -> range_ok st -> scan_all body pats st = Some st' ->
  range_ok st' /\ tighter st st'.
Proof.
  intros Hb Hok H.
  apply (scan_all_keeps body (fun s => range_ok s /\ tighter st s))
    with (pats := pats) (st := st); [|split; [exact Hok | now apply tighter_refl]|exact H].
  intros s m s' [Hs Hts] E.
  destruct (step_tightens body s m s' Hb Hs E) as [Hs' Hss'].
  split; [exact Hs'|]. exact (tighter_trans st s s' Hok Hs Hs' Hts Hss').
Qed.

Lemma range_ok_initial q : range_ok (initial q).
Proof. split; exact I. Qed.

(** The range of the final state, and how it relates to the state after
    each pass. *)
Lemma passes_stages q st :
  passes q = Some st ->
  exists st1 st2 st3 st4,
    scan_all interval_step [pat_between; pat_dash] (initial q) = Some st1
    /\ scan_all upper_step [pat_under; pat_le; pat_upto] st1 = Some st2
    /\ scan_all lower_step [pat_over; pat_ge] st2 = Some st3
    /\ scan_all approx_step [pat_around; pat_exactly] st3 = Some st4
    /\ st = soft_expensive (soft_cheap st4).
Proof.
  unfold passes.
  destruct (scan_all interval_step _ _) as [st1|] eqn:E1; [|discriminate].
  cbn [bind].
  destruct (scan_all upper_step _ _) as [st2|] eqn:E2; [|discriminate].
  cbn [bind].
  destruct (scan_all lower_step _ _) as [st3|] eqn:E3; [|discriminate].
  cbn [bind].
  destruct (scan_all approx_step _ _) as [st4|] eqn:E4; [|discriminate].
  cbn [bind].
  intros [= <-]. exists st1, st2, st3, st4. auto 10.
Qed.

End Tighten.

Module Origin.

Import Re.

#[local] Hint Constructors subseq : core.

Lemma subseq_refl a : subseq a a.
Proof. induction a; auto. Qed.

Lemma subseq_trans a b c : subseq a b -> subseq b c -> subseq a c.
Proof.
  intros Hab Hbc. revert a Hab.
  induction Hbc as [|x b c Hbc IH|x b c Hbc IH]; intros a Hab.
  - exact Hab.
  - inversion Hab; subst; auto.
  - auto.
Qed.

Lemma solid_app a b : solid (a ++ b) = solid a ++ solid b.
Proof.
  induction a as [|c a IH]; simpl; [reflexivity|].
  destruct (Chr.is_space c); simpl; now rewrite IH.
Qed.

Lemma subseq_solid_cons c s t :
  subseq t (solid s) -> subseq t (solid (String c s)).
Proof. simpl. destruct (Chr.is_space c); auto. Qed.

Lemma solid_replace_from old s : forall skip,
  subseq (solid (Str.replace_from old " " skip s)) (solid s).
Proof.
  induction s as [|c s IH]; intros skip; [simpl; auto|].
  cbn [Str.replace_from]. destruct skip as [|n].
  - destruct (Str.starts_with old (String c s)).
    + rewrite solid_app. simpl solid at 1. simpl append.
      apply subseq_solid_cons, IH.
    + simpl. destruct (Chr.is_space c); auto.
  - apply subseq_solid_cons, IH.
Qed.

Lemma solid_intersperse s : solid (Str.intersperse " " s) = solid s.
Proof.
  induction s as [|c s IH]; [reflexivity|].
  simpl. destruct (Chr.is_space c); now rewrite IH.
Qed.

Lemma solid_replace old s : subseq (solid (Str.replace old " " s)) (solid s).
Proof.
  unfold Str.replace. destruct (Str.is_empty old).
  - rewrite solid_intersperse. apply subseq_refl.
  - apply solid_replace_from.
Qed.

Lemma solid_sub_from r s : forall prev skip,
  subseq (solid (sub_from r " " prev skip s)) (solid s).
Proof.
  induction s as [|c s IH]; intros prev skip.
  - simpl. destruct skip; [|auto]. destruct (match_at r prev ""); simpl; auto.
  - cbn [sub_from]. destruct skip as [|n].
    + destruct (match_at r prev (String c s)) as [m|].
      * rewrite solid_app. simpl solid at 1. simpl append.
        destruct (String.length (group0 m)).
        -- simpl. destruct (Chr.is_space c); auto.
        -- apply subseq_solid_cons, IH.
      * simpl. destruct (Chr.is_space c); auto.
    + apply subseq_solid_cons, IH.
Qed.

Lemma solid_sub r s : subseq (solid (sub r " " s)) (solid s).
Proof. apply solid_sub_from. Qed.

Lemma join_cons_char c w ws :
  Str.join " " (String c w :: ws) = String c (Str.join " " (w :: ws)).
Proof. destruct ws; reflexivity. Qed.

Lemma solid_squish s : solid (Str.squish s) = solid s.
Proof.
  unfold Str.squish. induction s as [|c s IH]; [reflexivity|].
  simpl Str.split. destruct (Chr.is_space c) eqn:Ec.
  - simpl. now rewrite Ec.
  - destruct (Str.starts_with_space s);
      destruct (Str.split s) as [|w ws] eqn:Es.
    + simpl. rewrite Ec. now rewrite <- IH.
    + change (Str.join " " (String c "" :: w :: ws))
        with (String c (String " " (Str.join " " (w :: ws)))).
      cbn [solid]. rewrite Ec.
      change (Chr.is_space " ") with true. cbv iota. f_equal. exact IH.
    + simpl. rewrite Ec. now rewrite <- IH.
    + rewrite join_cons_char. cbn [solid]. rewrite Ec. f_equal. exact IH.
Qed.

Lemma solid_lstrip s : solid (Str.lstrip s) = solid s.
Proof.
  induction s as [|c s IH]; [reflexivity|].
  simpl. destruct (Chr.is_space c) eqn:E; [exact IH|].
  simpl. now rewrite E.
Qed.

Lemma rstrip_empty_solid s : Str.rstrip s = "" -> solid s = "".
Proof.
  induction s as [|c s IH]; [reflexivity|]. simpl.
  destruct (Str.is_empty (Str.rstrip s) && Chr.is_space c) eqn:E;
    [|discriminate].
  apply andb_true_iff in E as [Er Ec]. rewrite Ec. intros _.
  apply IH. now apply StrFacts.is_empty_true.
Qed.

Lemma solid_rstrip s : solid (Str.rstrip s) = solid s.
Proof.
  induction s as [|c s IH]; [reflexivity|].
  simpl Str.rstrip.
  destruct (Str.is_empty (Str.rstrip s) && Chr.is_space c) eqn:E.
  - symmetry. apply rstrip_empty_solid. simpl. now rewrite E.
  - simpl. now rewrite IH.
Qed.

Lemma solid_strip s : solid (Str.strip s) = solid s.
Proof. unfold Str.strip. now rewrite solid_rstrip, solid_lstrip. Qed.

Lemma solid_initial q : solid (text (initial q)) = solid (Str.lower q).
Proof.
  unfold initial. cbn [text]. simpl.
  now rewrite solid_app, solid_strip, StrFacts.app_empty_r.
Qed.

(** What a loop body does to the working text. *)
Lemma step_text body st m st' :
  is_step body -> body st m = Some st' ->
  text st' = erase m (text st).
Proof.
  intros [ -> | [ -> | [ -> | -> ] ] ];
    unfold interval_step, upper_step, lower_step, approx_step.
  - destruct (group 1 m); [|discriminate]. cbn [bind].
    destruct (_to_float _); [|discriminate]. cbn [bind].
    destruct (group 2 m); [|discriminate]. cbn [bind].
    destruct (_to_float _); [|discriminate]. cbn [bind].
    destruct (Flt.sorted2 _ _). now intros [= <-].
  - destruct (group 1 m); [|discriminate]. cbn [bind].
    destruct (_to_float _); [|discriminate]. cbn [bind]. now intros [= <-].
  - destruct (group 1 m); [|discriminate]. cbn [bind].
    destruct (_to_float _); [|discriminate]. cbn [bind]. now intros [= <-].
  - destruct (group 1 m); [|discriminate]. cbn [bind].
    destruct (_to_float _); [|discriminate]. cbn [bind].
    destruct (_ || _); now intros [= <-].
Qed.

Lemma pass_origin body pats src st st' :
  is_step body ->
  subseq (solid (text st)) src ->
  scan_all body pats st = Some st' ->
  subseq (solid (text st')) src.
Proof.
  intros Hb.
  apply (Tighten.scan_all_keeps body (fun s => subseq (solid (text s)) src)).
  intros s m s' Hs E. rewrite (step_text body s m s' Hb E).
  eapply subseq_trans; [apply solid_replace | exact Hs].
Qed.

Lemma soft_origin src st :
  subseq (solid (text st)) src ->
  subseq (solid (text (soft_expensive (soft_cheap st)))) src.
Proof.
  intros H.
  assert (H1 : subseq (solid (text (soft_cheap st))) src).
  { unfold soft_cheap. destruct (Re.search pat_cheap (text st)); [|exact H].
    cbn [text]. eapply subseq_trans; [apply solid_sub | exact H]. }
  unfold soft_expensive.
  destruct (Re.search pat_expensive (text (soft_cheap st))); [|exact H1].
  cbn [text]. eapply subseq_trans; [apply solid_sub | exact H1].
Qed.

Lemma passes_origin q st :
  passes q = Some st -> subseq (solid (text st)) (solid (Str.lower q)).
Proof.
  intros H.
  destruct (Tighten.passes_stages q st H)
    as (st1 & st2 & st3 & st4 & E1 & E2 & E3 & E4 & ->).
  apply soft_origin.
  assert (S1 : is_step interval_step) by (unfold is_step; auto).
  assert (S2 : is_step upper_step) by (unfold is_step; auto).
  assert (S3 : is_step lower_step) by (unfold is_step; auto).
  assert (S4 : is_step approx_step) by (unfold is_step; auto).
  eapply (pass_origin approx_step); [exact S4| |exact E4].
  eapply (pass_origin lower_step); [exact S3| |exact E3].
  eapply (pass_origin upper_step); [exact S2| |exact E2].
  eapply (pass_origin interval_step); [exact S1| |exact E1].
  rewrite solid_initial. apply subseq_refl.
Qed.

End Origin.

Module Dict.

Lemma get_set_same k v d : dict_get k (dict_set k v d) = Some v.
Proof.
  induction d as [|[k' v'] d IH]; simpl.
  - now rewrite String.eqb_refl.
  - destruct (String.eqb k' k) eqn:E; simpl.
    + now rewrite String.eqb_refl.
    + now rewrite E.
Qed.

Lemma get_set_other k k0 v d :
  k0 <> k -> dict_get k0 (dict_set k v d) = dict_get k0 d.
Proof.
  intros Hne. induction d as [|[k' v'] d IH]; simpl.
  - destruct (String.eqb k k0) eqn:E; [|reflexivity].
    apply String.eqb_eq in E. congruence.
  - destruct (String.eqb k' k) eqn:E; simpl.
    + apply String.eqb_eq in E. subst k'.
      destruct (String.eqb k k0) eqn:E0; [|reflexivity].
      apply String.eqb_eq in E0. congruence.
    + now rewrite IH.
Qed.

Lemma keys_set k v d :
  forall x, In x (List.map fst (dict_set k v d)) <->
            x = k \/ In x (List.map fst d).
Proof.
  induction d as [|[k' v'] d IH]; intros x; simpl.
  - intuition.
  - destruct (String.eqb k' k) eqn:E; simpl.
    + apply String.eqb_eq in E. subst k'. intuition.
    + rewrite IH. intuition.
Qed.

Lemma set_keys_unique k v d : keys_unique d -> keys_unique (dict_set k v d).
Proof.
  unfold keys_unique. induction d as [|[k' v'] d IH]; simpl; intros H.
  - constructor; [intros [] | constructor].
  - inversion H as [|? ? Hn Hd]; subst.
    destruct (String.eqb k' k) eqn:E; simpl.
    + apply String.eqb_eq in E. subst k'. now constructor.
    + constructor; [|auto].
      rewrite keys_set. intros [->|Hin]; [|contradiction].
      now rewrite String.eqb_refl in E.
Qed.

End Dict.

Module Seed.

Section Facts.

Variables store vector : Type.
Variable get_collections : store -> list string.
Variable create_collection : string -> VectorParams -> store -> store.
Variable points_count : string -> store -> option Z.
Variable upsert : string -> list (PointStruct vector) -> store -> store.
Variable embed_texts : list string -> list vector.
Variable uuid5_url : string -> option string.
Variable str_other : json -> string.

Lemma listed_spec n (l : list string) :
  existsb (String.eqb n) l = true <-> In n l.
Proof.
  rewrite existsb_exists. split.
  - intros (x & Hx & E). apply String.eqb_eq in E. now subst.
  - intros H. exists n. split; [exact H | apply String.eqb_refl].
Qed.

Lemma text_of_dict d : exists t, text_of str_other (JDict d) = Return t.
Proof.
  unfold text_of, item_get.
  destruct (dict_get "name" d), (dict_get "description" d); eauto.
Qed.

Lemma text_of_raise item e :
  text_of str_other item = Raise e -> e = AttributeError /\ ~ is_dict item.
Proof.
  destruct item as [| | | | | |d];
    try (intros [= <-]; split; [reflexivity|]; intros [d0 [=]]).
  intros H. destruct (text_of_dict d) as [t Ht]. congruence.
Qed.

Lemma for_each_raise {A B : Type} (f : A -> outcome B) l e :
  for_each f l = Raise e -> exists x, In x l /\ f x = Raise e.
Proof.
  induction l as [|x l IH]; simpl; [discriminate|].
  destruct (f x) as [y|e0] eqn:E.
  - destruct (for_each f l) as [ys|e1]; [discriminate|].
    intros [= <-]. destruct (IH eq_refl) as (x0 & Hin & Hx). eauto.
  - intros [= <-]. eauto.
Qed.


Lemma for_each_returned {A B : Type} (f : A -> outcome B) l ys :
  for_each f l = Return ys ->
  forall x, In x l -> exists y, f x = Return y.
Proof.
  revert ys. induction l as [|a l IH]; intros ys H x Hin; [destruct Hin|].
  simpl in H. destruct (f a) as [y|e0] eqn:Ea; [|discriminate].
  destruct (for_each f l) as [ys'|e1]; [|discriminate].
  destruct Hin as [<-|Hin]; [eauto|]. exact (IH ys' eq_refl x Hin).
Qed.

Lemma point_of_dict d (v : vector) :
  point_of uuid5_url str_other (JDict d, v)
  = match uuid5_url ("product:" ++ py_str str_other (id_of d)) with
    | Some u =>
        Return {| id := u; vector_of := v;
                  payload := dict_set "product_id" (id_of d) d |}
    | None => Raise UnicodeEncodeError
    end.
Proof.
  unfold point_of, item_get, _to_uuid, id_of.
  destruct (dict_get "id" d); destruct (uuid5_url _); reflexivity.
Qed.

Lemma point_of_raise item (v : vector) e :
  point_of uuid5_url str_other (item, v) = Raise e ->
  (e = AttributeError /\ ~ is_dict item)
  \/ (e = UnicodeEncodeError
      /\ exists d,
          item = JDict d
          /\ uuid5_url ("product:" ++ py_str str_other (id_of d)) = None).
Proof.
  destruct item as [| | | | | |d];
    try (intros [= <-]; left; split; [reflexivity|]; intros [d0 [=]]).
  rewrite point_of_dict.
  destruct (uuid5_url _) eqn:E; [discriminate|].
  intros [= <-]. right. split; [reflexivity|]. eauto.
Qed.

End Facts.

End Seed.

Module Trim.

Lemma lstrip_fixed s :
  Str.starts_with_space s = false -> Str.lstrip s = s.
Proof. destruct s as [|c s]; simpl; [discriminate|]. now intros ->. Qed.

Lemma lstrip_starts s :
  Str.lstrip s = "" \/ Str.starts_with_space (Str.lstrip s) = false.
Proof.
  induction s as [|c s IH]; simpl; [now left|].
  destruct (Chr.is_space c) eqn:E; [exact IH|]. right. simpl. exact E.
Qed.

Lemma rstrip_starts s :
  Str.starts_with_space s = false ->
  Str.starts_with_space (Str.rstrip s) = false.
Proof.
  destruct s as [|c s]; simpl; [discriminate|]. intros E. rewrite E.
  rewrite andb_false_r. simpl. exact E.
Qed.

Lemma rstrip_idempotent s : Str.rstrip (Str.rstrip s) = Str.rstrip s.
Proof.
  induction s as [|c s IH]; [reflexivity|]. simpl.
  destruct (Str.is_empty (Str.rstrip s) && Chr.is_space c) eqn:E;
    [reflexivity|].
  simpl. rewrite IH, E. reflexivity.
Qed.

Theorem strip_idempotent s : Str.strip (Str.strip s) = Str.strip s.
Proof.
  unfold Str.strip. destruct (lstrip_starts s) as [E|E].
  - rewrite E. reflexivity.
  - rewrite (lstrip_fixed (Str.rstrip (Str.lstrip s)))
      by (now apply rstrip_starts).
    apply rstrip_idempotent.
Qed.

Lemma initial_normalized q : initial (Str.strip (Str.lower q)) = initial q.
Proof.
  unfold initial. f_equal. f_equal. f_equal.
  rewrite (Words.lower_id (Str.strip (Str.lower q)))
    by (apply Words.all_strip, Words.lower_lower_fixed).
  apply strip_idempotent.
Qed.

End Trim.

(** ** Further properties of the extractor *)

(** X1. [_to_float] raises on no text that [_NUM] can capture, and the
    float it returns is a number that is not negative. *)
Theorem X1_to_float_numeral (t : string) :
  numeral t -> exists f, _to_float t = Some f /\ bound_ok f = true.
Proof.
  intros H. destruct (Numeral.numeral_float t H) as (f & Hf & _).
  exists f. split; [exact Hf|]. exact (Tighten.to_float_bound t f Hf).
Qed.

Lemma X1_to_float_numeral_witness :
  exists f, _to_float "12,345.67" = Some f /\ bound_ok f = true.
Proof.
  apply (X1_to_float_numeral "12,345.67").
  exists [].
  exact (ReFacts.match_at_sound _NUM None "12,345.67"
           {| Re.group0 := "12,345.67"; Re.groups := [] |} eq_refl).
Defined.

(** X2. For every query the extractor returns, and each bound it returns is
    a number that is not negative: never NaN, never below zero. *)
Theorem X2_bounds_are_numbers (q : string) :
  exists c mn mx,
    _extract_price_filters q = Some (c, mn, mx) /\ opt_ok mn /\ opt_ok mx.
Proof.
  destruct (Passes.passes_ok q) as (st & Hp & _).
  unfold _extract_price_filters. rewrite Hp. cbn [bind]. unfold finish.
  do 3 eexists. split; [reflexivity|].
  destruct (Tighten.passes_stages q st Hp)
    as (st1 & st2 & st3 & st4 & E1 & E2 & E3 & E4 & ->).
  assert (S1 : is_step interval_step) by (unfold is_step; auto).
  assert (S2 : is_step upper_step) by (unfold is_step; auto).
  assert (S3 : is_step lower_step) by (unfold is_step; auto).
  assert (S4 : is_step approx_step) by (unfold is_step; auto).
  destruct (Tighten.pass_tightens _ _ _ _ S1 (Tighten.range_ok_initial q) E1)
    as [R1 _].
  destruct (Tighten.pass_tightens _ _ _ _ S2 R1 E2) as [R2 _].
  destruct (Tighten.pass_tightens _ _ _ _ S3 R2 E3) as [R3 _].
  destruct (Tighten.pass_tightens _ _ _ _ S4 R3 E4) as [R4 _].
  destruct (Tighten.soft_cheap_tightens st4 R4) as [R5 _].
  destruct (Tighten.soft_expensive_tightens _ R5) as [R6 _].
  exact R6.
Qed.

(** X3. What a pass has set, the later passes only tighten: a bound that is
    present after the interval, the upper-bound, the lower-bound or the
    approximation pass is present in the final state, and is at least as
    strict there. *)
Theorem X3_later_passes_tighten (q : string) (st : state) :
  passes q = Some st ->
  exists st1 st2 st3 st4,
    scan_all interval_step [pat_between; pat_dash] (initial q) = Some st1
    /\ scan_all upper_step [pat_under; pat_le; pat_upto] st1 = Some st2
    /\ scan_all lower_step [pat_over; pat_ge] st2 = Some st3
    /\ scan_all approx_step [pat_around; pat_exactly] st3 = Some st4
    /\ tighter st1 st /\ tighter st2 st /\ tighter st3 st /\ tighter st4 st.
Proof.
  intros Hp.
  destruct (Tighten.passes_stages q st Hp)
    as (st1 & st2 & st3 & st4 & E1 & E2 & E3 & E4 & ->).
  exists st1, st2, st3, st4. repeat (split; [assumption|]).
  assert (S1 : is_step interval_step) by (unfold is_step; auto).
  assert (S2 : is_step upper_step) by (unfold is_step; auto).
  assert (S3 : is_step lower_step) by (unfold is_step; auto).
  assert (S4 : is_step approx_step) by (unfold is_step; auto).
  destruct (Tighten.pass_tightens _ _ _ _ S1 (Tighten.range_ok_initial q) E1)
    as [R1 _].
  destruct (Tighten.pass_tightens _ _ _ _ S2 R1 E2) as [R2 T2].
  destruct (Tighten.pass_tightens _ _ _ _ S3 R2 E3) as [R3 T3].
  destruct (Tighten.pass_tightens _ _ _ _ S4 R3 E4) as [R4 T4].
  destruct (Tighten.soft_cheap_tightens st4 R4) as [R5 T5].
  destruct (Tighten.soft_expensive_tightens _ R5) as [R6 T6].
  assert (T46 : tighter st4 (soft_expensive (soft_cheap st4)))
    by exact (Tighten.tighter_trans _ _ _ R4 R5 R6 T5 T6).
  assert (T36 : tighter st3 (soft_expensive (soft_cheap st4)))
    by exact (Tighten.tighter_trans _ _ _ R3 R4 R6 T4 T46).
  assert (T26 : tighter st2 (soft_expensive (soft_cheap st4)))
    by exact (Tighten.tighter_trans _ _ _ R2 R3 R6 T3 T36).
  assert (T16 : tighter st1 (soft_expensive (soft_cheap st4)))
    by exact (Tighten.tighter_trans _ _ _ R1 R2 R6 T2 T26).
  auto.
Qed.

Lemma X3_later_passes_tighten_witness :
  exists st,
    passes "between 5 and 50 under 20 cheap" = Some st
    /\ exists st1 st2 st3 st4,
      scan_all interval_step [pat_between; pat_dash]
        (initial "between 5 and 50 under 20 cheap") = Some st1
      /\ scan_all upper_step [pat_under; pat_le; pat_upto] st1 = Some st2
      /\ scan_all lower_step [pat_over; pat_ge] st2 = Some st3
      /\ scan_all approx_step [pat_around; pat_exactly] st3 = Some st4
      /\ tighter st1 st /\ tighter st2 st /\ tighter st3 st /\ tighter st4 st.
Proof.
  eexists. split.
  - vm_compute. reflexivity.
  - apply (X3_later_passes_tighten "between 5 and 50 under 20 cheap").
    vm_compute. reflexivity.
Defined.

(** X4. The upper-bound pass never touches the lower bound, and the
    lower-bound pass never touches the upper bound, whatever the patterns
    and the matches. *)
Theorem X4_pass_frame (pats : list Re.regex) (st st' : state) :
  (scan_all upper_step pats st = Some st' -> min_price st' = min_price st)
  /\ (scan_all lower_step pats st = Some st' -> max_price st' = max_price st).
Proof.
  split; intros H.
  - apply (Tighten.scan_all_keeps upper_step
             (fun s => min_price s = min_price st)) with (pats := pats) (st := st);
      [|reflexivity|exact H].
    intros s m s' Hs. unfold upper_step.
    destruct (Re.group 1 m); [|discriminate]. cbn [bind].
    destruct (_to_float _); [|discriminate]. cbn [bind].
    now intros [= <-].
  - apply (Tighten.scan_all_keeps lower_step
             (fun s => max_price s = max_price st)) with (pats := pats) (st := st);
      [|reflexivity|exact H].
    intros s m s' Hs. unfold lower_step.
    destruct (Re.group 1 m); [|discriminate]. cbn [bind].
    destruct (_to_float _); [|discriminate]. cbn [bind].
    now intros [= <-].
Qed.

Lemma X4_pass_frame_witness :
  min_price {| text := " towels     ";
               min_price := Some (Flt.of_N 5);
               max_price := Some (Flt.of_N 10) |} = Some (Flt.of_N 5).
Proof.
  apply (proj1 (X4_pass_frame [pat_under; pat_le; pat_upto]
                  {| text := " towels under 50 under 10 ";
                     min_price := Some (Flt.of_N 5); max_price := None |} _)).
  vm_compute. reflexivity.
Defined.

(** X5. Trimming and lower-casing a query beforehand changes nothing: the
    passes end in the same state, so the range is the same. *)
Theorem X5_normalized_query (q : string) :
  passes (Str.strip (Str.lower q)) = passes q
  /\ range_of (_extract_price_filters (Str.strip (Str.lower q)))
     = range_of (_extract_price_filters q).
Proof.
  assert (H : passes (Str.strip (Str.lower q)) = passes q).
  { unfold passes. now rewrite Trim.initial_normalized. }
  split; [exact H|]. unfold _extract_price_filters. rewrite H.
  destruct (passes q); reflexivity.
Qed.

(** X6. A query without a digit gets no bound from a number: the upper
    bound is 15.0 if a word of the first soft list is there and absent
    otherwise, the lower bound is 100.0 if a word of the second soft list
    is there and absent otherwise. *)
Theorem X6_digitless (q : string) :
  Str.any Chr.is_digit q = false ->
  exists c,
    _extract_price_filters q
    = Some (c,
            if Re.search pat_expensive (text (soft_cheap (initial q)))
            then Some f100 else None,
            if Re.search pat_cheap (text (initial q))
            then Some f15 else None).
Proof.
  intros Hd.
  pose proof (Digitless.digitless_no_numeric_phrase q Hd) as H.
  simpl forallb in H.
  repeat (apply andb_true_iff in H; destruct H as [?H H]).
  unfold _extract_price_filters, passes, scan_all.
  repeat (rewrite Passes.scan_no_match by assumption; cbn [bind]).
  unfold finish. eexists. f_equal. f_equal; [f_equal|].
  - unfold soft_expensive.
    destruct (Re.search pat_expensive (text (soft_cheap (initial q))));
      cbn [min_price]; unfold soft_cheap;
      destruct (Re.search pat_cheap (text (initial q))); reflexivity.
  - unfold soft_expensive.
    destruct (Re.search pat_expensive (text (soft_cheap (initial q))));
      cbn [max_price]; unfold soft_cheap;
      destruct (Re.search pat_cheap (text (initial q))); reflexivity.
Qed.

Lemma X6_digitless_witness :
  exists c,
    _extract_price_filters "Cheap premium soap"
    = Some (c, Some f100, Some f15).
Proof. apply (X6_digitless "Cheap premium soap"). reflexivity. Defined.

(** X7. The cleaned text is the raw query, or else it is not empty, is in
    lower case and is its own whitespace normal form: no whitespace at
    either end and single spaces between its words. *)
Theorem X7_cleaned_shape (q c : string) (mn mx : option Flt.float) :
  _extract_price_filters q = Some (c, mn, mx) ->
  c = q \/ (c <> "" /\ Str.lower c = c /\ Str.squish c = c).
Proof.
  unfold _extract_price_filters.
  destruct (Passes.passes_ok q) as (st & Hp & Hl). rewrite Hp. cbn [bind].
  unfold finish. intros [= <- _ _].
  destruct (Str.is_empty (Str.squish (text st))) eqn:E; [now left|].
  right. split; [now apply StrFacts.is_empty_false|]. split.
  - apply Words.lower_id. now apply Words.all_squish.
  - apply Words.squish_idempotent.
Qed.

Lemma X7_cleaned_shape_witness :
  "cleaning spray" = "Cleaning  Spray under 10 dollars"
  \/ ("cleaning spray" <> "" /\ Str.lower "cleaning spray" = "cleaning spray"
      /\ Str.squish "cleaning spray" = "cleaning spray").
Proof.
  apply (X7_cleaned_shape "Cleaning  Spray under 10 dollars" "cleaning spray"
           None (Some (Flt.of_N 10))).
  vm_compute. reflexivity.
Defined.

(** X8. The extractor invents no character: unless the cleaned text is the
    raw query, its characters other than whitespace are characters of the
    lower-cased query, in the same order. *)
Theorem X8_cleaned_origin (q c : string) (mn mx : option Flt.float) :
  _extract_price_filters q = Some (c, mn, mx) ->
  c = q \/ subseq (solid c) (solid (Str.lower q)).
Proof.
  unfold _extract_price_filters.
  destruct (passes q) as [st|] eqn:Hp; [|discriminate]. cbn [bind].
  unfold finish. intros [= <- _ _].
  destruct (Str.is_empty (Str.squish (text st))); [now left|].
  right. rewrite Origin.solid_squish. now apply Origin.passes_origin.
Qed.

Lemma X8_cleaned_origin_witness :
  "rec files" = "Recover 20 files"
  \/ subseq (solid "rec files") (solid (Str.lower "Recover 20 files")).
Proof.
  apply (X8_cleaned_origin "Recover 20 files" "rec files"
           (Some (Flt.of_N 20)) None).
  vm_compute. reflexivity.
Defined.

(** ** Further properties of the route *)





(** ** Properties of the collection and its seeding *)

Section SeedingProperties.

Variables store vector : Type.
Variable get_collections : store -> list string.
Variable create_collection : string -> VectorParams -> store -> store.
Variable points_count : string -> store -> option Z.
Variable upsert : string -> list (PointStruct vector) -> store -> store.
Variable embed_texts : list string -> list vector.
Variable uuid5_url : string -> option string.
Variable str_other : json -> string.

(** X11. On a store that lists a collection once it is created,
    [ensure_collection] leaves the collection listed, does nothing when it
    is listed already, and so does nothing when it runs a second time. *)
Theorem X11_ensure_collection (client : store) :
  (forall n p c, In n (get_collections (create_collection n p c))) ->
  In COLLECTION (get_collections (ensure_collection get_collections create_collection client))
  /\ (In COLLECTION (get_collections client) -> ensure_collection get_collections create_collection client = client)
  /\ ensure_collection get_collections create_collection
       (ensure_collection get_collections create_collection client)
     = ensure_collection get_collections create_collection client.
Proof.
  intros Hlaw. unfold ensure_collection.
  assert (H1 : In COLLECTION
                 (get_collections
                    (if existsb (String.eqb COLLECTION) (get_collections client)
                     then client
                     else create_collection COLLECTION
                            {| size := DIM; distance := COSINE |} client))).
  { destruct (existsb _ (get_collections client)) eqn:E.
    - now apply Seed.listed_spec.
    - apply Hlaw. }
  split; [exact H1|]. split.
  - intros Hin. apply Seed.listed_spec in Hin. now rewrite Hin.
  - apply Seed.listed_spec in H1. now rewrite H1.
Qed.

(** X12. With the calls of the store, of the embedder and of [str]
    returning, [upsert_products] raises in four ways only.  With the store
    untouched: the exception of the file's lookup, reading, UTF-8 decoding
    or parsing that is no JSONDecodeError, let through as it is; and the
    HTTP error 400, with the detail "Invalid products.json: ..." for a text
    that is no JSON, and "products.json must be a JSON array" for a JSON
    value that is no array.  After the collection has been ensured and
    nothing else done to the store: an AttributeError, for an array with an
    item that is no object; and a UnicodeEncodeError, for an array of
    objects one of which has an id whose text [uuid.uuid5] cannot
    encode. *)
Theorem X12_upsert_raises (file : products_file) (client s : store)
        (e : error) :
  upsert_products get_collections create_collection upsert embed_texts
      uuid5_url str_other file client = (s, Raise e) ->
  (s = client /\ file = Unreadable e)
  \/ (s = client
      /\ ((exists err,
             file = BadJson err
             /\ e = HTTPException 400 ("Invalid products.json: " ++ err))
          \/ (exists data,
                 file = Json data /\ (forall l, data <> JList l)
                 /\ e = HTTPException 400 "products.json must be a JSON array")))
  \/ (s = ensure_collection get_collections create_collection client
      /\ e = AttributeError
      /\ exists data item,
          file = Json (JList data) /\ In item data /\ ~ is_dict item)
  \/ (s = ensure_collection get_collections create_collection client
      /\ e = UnicodeEncodeError
      /\ exists data d,
          file = Json (JList data)
          /\ (forall item, In item data -> is_dict item)
          /\ In (JDict d) data
          /\ uuid5_url ("product:" ++ py_str str_other (id_of d)) = None).
Proof.
  unfold upsert_products.
  destruct file as [|e0|err|data]; [discriminate| | |].
  - intros [= <- <-]. left. split; reflexivity.
  - intros [= <- <-]. right. left. split; [reflexivity|]. left. eauto.
  - destruct data as [| | | | |l|];
      try (intros [= <- <-]; right; left; split; [reflexivity|]; right;
           eexists; split; [reflexivity|]; split;
           [discriminate|reflexivity]).
    destruct (for_each (text_of str_other) l) as [texts|e0] eqn:Et.
    + destruct (for_each (point_of uuid5_url str_other)
                  (combine l (embed_texts texts))) as [points|e1] eqn:Ep;
        [discriminate|].
      intros [= <- <-]. right. right.
      assert (Hall : forall item, In item l -> is_dict item).
      { intros item Hin.
        destruct (Seed.for_each_returned _ _ _ Et item Hin) as (y & Hy).
        destruct item as [| | | | | |d]; try discriminate Hy.
        now exists d. }
      apply Seed.for_each_raise in Ep as ([item v] & Hin & Hr).
      apply Seed.point_of_raise in Hr as [[-> Hnd] | [-> (d & -> & Hu)]].
      * left. split; [reflexivity|]. split; [reflexivity|].
        exists l, item. split; [reflexivity|]. split; [|exact Hnd].
        exact (in_combine_l _ _ _ _ Hin).
      * right. split; [reflexivity|]. split; [reflexivity|].
        exists l, d. split; [reflexivity|]. split; [exact Hall|].
        split; [|exact Hu]. exact (in_combine_l _ _ _ _ Hin).
    + intros [= <- <-]. right. right. left.
      apply Seed.for_each_raise in Et as (item & Hin & Hr).
      apply Seed.text_of_raise in Hr as [-> Hnd].
      split; [reflexivity|]. split; [reflexivity|]. eauto.
Qed.


(** X14. For an item whose id has a text that [uuid.uuid5] cannot encode
    the point is not made: the UnicodeEncodeError comes out.  For any other
    item the point is made, and its payload is the item with "product_id"
    set to the item's id, or to null when the item has none: looking up
    "product_id" gives that id, every other key gives what the item gives,
    and the keys stay different from each other. *)
Theorem X14_payload (d : dict) (v : vector) :
  (uuid5_url ("product:" ++ py_str str_other (id_of d)) = None ->
   point_of uuid5_url str_other (JDict d, v) = Raise UnicodeEncodeError)
  /\ (uuid5_url ("product:" ++ py_str str_other (id_of d)) <> None ->
      exists p,
        point_of uuid5_url str_other (JDict d, v) = Return p
        /\ vector_of p = v
        /\ dict_get "product_id" (payload p) = Some (id_of d)
        /\ (forall k, k <> "product_id" ->
              dict_get k (payload p) = dict_get k d)
        /\ (keys_unique d -> keys_unique (payload p))).
Proof.
  rewrite Seed.point_of_dict.
  destruct (uuid5_url _) as [u|]; split; try congruence.
  intros _. eexists. split; [reflexivity|]. cbn [vector_of payload].
  split; [reflexivity|]. split; [apply Dict.get_set_same|]. split.
  - intros k Hk. now apply Dict.get_set_other.
  - apply Dict.set_keys_unique.
Qed.

(** X15. The id of a point is the UUID of "product:" followed by the text
    of the item's id.  Items whose ids have the same text share their point
    id: an item without id, one with a null id and one with the id "None";
    and an item with an integer id and one with its decimal text. *)
Theorem X15_point_id (d1 d2 : dict) (v1 v2 : vector)
        (p1 p2 : PointStruct vector) :
  point_of uuid5_url str_other (JDict d1, v1) = Return p1 ->
  point_of uuid5_url str_other (JDict d2, v2) = Return p2 ->
  uuid5_url ("product:" ++ py_str str_other (id_of d1)) = Some (id p1)
  /\ (dict_get "id" d1 = None ->
      dict_get "id" d2 = None \/ dict_get "id" d2 = Some JNull
      \/ dict_get "id" d2 = Some (JStr "None") ->
      id p1 = id p2)
  /\ (forall z,
        dict_get "id" d1 = Some (JInt z) ->
        dict_get "id" d2 = Some (JStr (NilZero.string_of_int (Z.to_int z))) ->
        id p1 = id p2).
Proof.
  rewrite !Seed.point_of_dict.
  destruct (uuid5_url ("product:" ++ py_str str_other (id_of d1)))
    as [u1|] eqn:E1; [|discriminate].
  destruct (uuid5_url ("product:" ++ py_str str_other (id_of d2)))
    as [u2|] eqn:E2; [|discriminate].
  intros [= <-] [= <-]. cbn [id].
  split; [reflexivity|].
  assert (Hsame : py_str str_other (id_of d1) = py_str str_other (id_of d2)
                  -> u1 = u2).
  { intros H. rewrite H in E1. congruence. }
  unfold id_of in Hsame. split.
  - intros H1 H2. apply Hsame. rewrite H1.
    destruct H2 as [-> | [-> | ->]]; reflexivity.
  - intros z H1 H2. apply Hsame. rewrite H1, H2. reflexivity.
Qed.

(** X16. [reindex] returns what [upsert_products] returns and raises what
    it raises: the answer of [upsert_products] is never empty, so the
    fallback answer of [reindex] is never used. *)
Theorem X16_reindex (file : products_file) (client : store) :
  reindex get_collections create_collection upsert embed_texts uuid5_url
          str_other file client
  = upsert_products get_collections create_collection upsert embed_texts
      uuid5_url str_other file client.
Proof.
  unfold reindex, upsert_products.
  destruct file as [|e|err|data]; try reflexivity.
  destruct data as [| | | | |l|]; try reflexivity.
  destruct (for_each (text_of str_other) l) as [texts|e0]; [|reflexivity].
  destruct (for_each (point_of uuid5_url str_other) _) as [points|e1];
    reflexivity.
Qed.

(** X17. [startup] ensures the collection first.  A collection that has
    points is not seeded again, whatever is in products.json; an empty one
    is seeded by [upsert_products], whose exception [startup] lets through;
    and without products.json [startup] never raises and does no more than
    ensure the collection. *)
Theorem X17_startup (file : products_file) (client : store) :
  let run := startup get_collections create_collection points_count upsert
                     embed_texts uuid5_url str_other in
  (forall n, points_count COLLECTION (ensure_collection get_collections create_collection client) = Some n -> n <> 0%Z ->
             run file client = (ensure_collection get_collections create_collection client, Return tt))
  /\ (points_count COLLECTION (ensure_collection get_collections create_collection client) = None
      \/ points_count COLLECTION (ensure_collection get_collections create_collection client) = Some 0%Z ->
      fst (run file client) = fst (upsert_products get_collections create_collection upsert embed_texts
      uuid5_url str_other file (ensure_collection get_collections create_collection client))
      /\ forall e, snd (run file client) = Raise e
                   <-> snd (upsert_products get_collections create_collection upsert embed_texts
      uuid5_url str_other file (ensure_collection get_collections create_collection client)) = Raise e)
  /\ run NoFile client = (ensure_collection get_collections create_collection client, Return tt).
Proof.
  cbv zeta. unfold startup.
  set (c1 := ensure_collection get_collections create_collection client).
  split; [|split].
  - intros n -> Hn. destruct (n =? 0)%Z eqn:E; [apply Z.eqb_eq in E; lia|].
    now rewrite E.
  - intros H.
    assert (Hc : ((match points_count COLLECTION c1 with
                   | Some n => if (n =? 0)%Z then 0%Z else n
                   | None => 0%Z
                   end) =? 0)%Z = true)
      by (destruct H as [-> | ->]; reflexivity).
    rewrite Hc.
    destruct (upsert_products _ _ _ _ _ _ file c1) as [s [body|e0]]; simpl.
    + split; [reflexivity|]. intros e. split; discriminate.
    + split; [reflexivity|]. intros e. split; intros [= <-]; reflexivity.
  - destruct (_ =? 0)%Z; reflexivity.
Qed.

End SeedingProperties.

Lemma X11_ensure_collection_witness :
  In COLLECTION (toy_collections (ensure_collection toy_collections toy_create []))
  /\ (In COLLECTION (toy_collections []) ->
      ensure_collection toy_collections toy_create [] = [])
  /\ ensure_collection toy_collections toy_create
       (ensure_collection toy_collections toy_create [])
     = ensure_collection toy_collections toy_create [].
Proof.
  apply (X11_ensure_collection toy_store toy_collections toy_create []).
  intros n p c. simpl. now left.
Defined.

Lemma X12_upsert_raises_witness :
  ([(COLLECTION, [])] = @nil (string * list (PointStruct unit))
   /\ Json (JList [JDict soap; JDict brush]) = Unreadable UnicodeEncodeError)
  \/ ([(COLLECTION, [])] = @nil (string * list (PointStruct unit))
      /\ ((exists err,
             Json (JList [JDict soap; JDict brush]) = BadJson err
             /\ UnicodeEncodeError
                = HTTPException 400 ("Invalid products.json: " ++ err))
          \/ (exists data,
                 Json (JList [JDict soap; JDict brush]) = Json data
                 /\ (forall l, data <> JList l)
                 /\ UnicodeEncodeError
                    = HTTPException 400 "products.json must be a JSON array")))
  \/ ([(COLLECTION, [])] = ensure_collection toy_collections toy_create []
      /\ UnicodeEncodeError = AttributeError
      /\ exists data item,
          Json (JList [JDict soap; JDict brush]) = Json (JList data)
          /\ In item data /\ ~ is_dict item)
  \/ ([(COLLECTION, [])] = ensure_collection toy_collections toy_create []
      /\ UnicodeEncodeError = UnicodeEncodeError
      /\ exists data d,
          Json (JList [JDict soap; JDict brush]) = Json (JList data)
          /\ (forall item, In item data -> is_dict item)
          /\ In (JDict d) data
          /\ toy_uuid ("product:" ++ py_str toy_str (id_of d)) = None).
Proof.
  apply (X12_upsert_raises toy_store unit toy_collections toy_create
           toy_upsert toy_embed toy_uuid toy_str
           (Json (JList [JDict soap; JDict brush])) [] [(COLLECTION, [])]
           UnicodeEncodeError).
  reflexivity.
Defined.


Lemma X14_payload_witness :
  toy_uuid ("product:" ++ py_str toy_str (id_of soap)) <> None
  /\ exists p,
    point_of toy_uuid toy_str (JDict soap, tt) = Return p
    /\ vector_of p = tt
    /\ dict_get "product_id" (payload p) = Some (JInt 7)
    /\ (forall k, k <> "product_id" -> dict_get k (payload p) = dict_get k soap)
    /\ (keys_unique soap -> keys_unique (payload p)).
Proof.
  assert (H : toy_uuid ("product:" ++ py_str toy_str (id_of soap)) <> None)
    by discriminate.
  split; [exact H|].
  exact (proj2 (X14_payload unit toy_uuid toy_str soap tt) H).
Defined.

Lemma X15_point_id_witness :
  id {| id := "uuid5(product:None)"; vector_of := tt;
        payload := dict_set "product_id" JNull towel |}
  = id {| id := "uuid5(product:None)"; vector_of := tt;
          payload := [("id", JStr "None"); ("product_id", JStr "None")] |}.
Proof.
  apply (proj1 (proj2
    (X15_point_id unit toy_uuid toy_str towel [("id", JStr "None")] tt tt
       {| id := "uuid5(product:None)"; vector_of := tt;
          payload := dict_set "product_id" JNull towel |}
       {| id := "uuid5(product:None)"; vector_of := tt;
          payload := [("id", JStr "None"); ("product_id", JStr "None")] |}
       eq_refl eq_refl))).
  - reflexivity.
  - right. right. reflexivity.
Defined.

Lemma X17_startup_witness :
  startup toy_collections toy_create toy_count toy_upsert toy_embed toy_uuid
          toy_str (BadJson "Expecting value")
          [(COLLECTION, [{| id := "a"; vector_of := tt; payload := soap |}])]
  = ([(COLLECTION, [{| id := "a"; vector_of := tt; payload := soap |}])],
     Return tt).
Proof.
  apply (proj1 (X17_startup toy_store unit toy_collections toy_create
                  toy_count toy_upsert toy_embed toy_uuid toy_str
                  (BadJson "Expecting value")
                  [(COLLECTION,
                    [{| id := "a"; vector_of := tt; payload := soap |}])])
           1%Z); [reflexivity | discriminate].
Defined.
